(** * Cost models and scenario sweeps of the SSSP cost analysis

    A shallow embedding of [run_analysis.py] and
    [run_comprehensive_analysis.py].

    Numbers.  The scripts compute on NumPy [float64] arrays.  A value is
    modelled as an extended real: a finite real number, one of the two
    infinities, or NaN.  The special values and the way NumPy's operations
    produce and propagate them are modelled as IEEE 754 / C99 Annex F define
    them; rounding, overflow, underflow and the sign of zero are not
    modelled (finite results are exact reals).

    Arrays.  A one-dimensional [ndarray] is a list.  Binary operations
    broadcast as NumPy does for one-dimensional operands and raise
    [ValueError] on incompatible shapes. *)

From Stdlib Require Import Reals Lra Lia Ascii String Bool Arith List Sorted.
Import ListNotations.
Local Open Scope R_scope.

(** ** Results of Python computations *)

Inductive py_exn : Type :=
| ValueError
| IndexError
| TypeError.

Inductive result (A : Type) : Type :=
| Ok (a : A)
| Raise (e : py_exn).
Arguments Ok {A} a.
Arguments Raise {A} e.

Definition bind {A B : Type} (c : result A) (k : A -> result B) : result B :=
  match c with
  | Ok a => k a
  | Raise e => Raise e
  end.

Notation "x <- c ;; k" := (bind c (fun x => k))
  (at level 61, c at next level, right associativity).

(** ** float64 scalars *)

Inductive f64 : Type :=
| Fin (r : R)
| PInf
| NInf
| NaN.

Definition isnan (x : f64) : bool :=
  match x with NaN => true | _ => false end.

Definition isneginf (x : f64) : bool :=
  match x with NInf => true | _ => false end.

(** [x + y] *)
Definition fadd (x y : f64) : f64 :=
  match x, y with
  | NaN, _ | _, NaN => NaN
  | Fin a, Fin b => Fin (a + b)
  | PInf, NInf | NInf, PInf => NaN
  | PInf, _ | _, PInf => PInf
  | NInf, _ | _, NInf => NInf
  end.

(** [- x] *)
Definition fneg (x : f64) : f64 :=
  match x with
  | Fin a => Fin (- a)
  | PInf => NInf
  | NInf => PInf
  | NaN => NaN
  end.

(** [x - y] *)
Definition fsub (x y : f64) : f64 := fadd x (fneg y).

(** The product of an infinity of the given sign with a finite factor. *)
Definition inf_times (positive : bool) (a : R) : f64 :=
  if Rlt_dec 0 a then (if positive then PInf else NInf)
  else if Rlt_dec a 0 then (if positive then NInf else PInf)
  else NaN.

(** [x * y] *)
Definition fmul (x y : f64) : f64 :=
  match x, y with
  | NaN, _ | _, NaN => NaN
  | Fin a, Fin b => Fin (a * b)
  | Fin a, PInf | PInf, Fin a => inf_times true a
  | Fin a, NInf | NInf, Fin a => inf_times false a
  | PInf, PInf | NInf, NInf => PInf
  | PInf, NInf | NInf, PInf => NInf
  end.

(** [x / y]; a finite non-zero value divided by zero is an infinity. *)
Definition fdiv (x y : f64) : f64 :=
  match x, y with
  | NaN, _ | _, NaN => NaN
  | Fin a, Fin b =>
      if Req_dec_T b 0 then inf_times true a else Fin (a / b)
  | Fin _, PInf | Fin _, NInf => Fin 0
  | PInf, Fin b => if Rlt_dec b 0 then NInf else PInf
  | NInf, Fin b => if Rlt_dec b 0 then PInf else NInf
  | PInf, PInf | PInf, NInf | NInf, PInf | NInf, NInf => NaN
  end.

(** [abs(x)] *)
Definition fabs (x : f64) : f64 :=
  match x with
  | Fin a => Fin (Rabs a)
  | PInf | NInf => PInf
  | NaN => NaN
  end.

(** [x >= y]; every comparison with NaN is false. *)
Definition fge (x y : f64) : bool :=
  match x, y with
  | NaN, _ | _, NaN => false
  | Fin a, Fin b => if Rle_dec b a then true else false
  | PInf, _ => true
  | _, NInf => true
  | _, _ => false
  end.

(** [x > y] *)
Definition fgt (x y : f64) : bool :=
  match x, y with
  | NaN, _ | _, NaN => false
  | Fin a, Fin b => if Rlt_dec b a then true else false
  | PInf, PInf | NInf, _ => false
  | PInf, _ => true
  | Fin _, NInf => true
  | Fin _, PInf => false
  end.

(** [x < y] *)
Definition flt (x y : f64) : bool := fgt y x.

(** [log2(x)]: the logarithm of zero is minus infinity, that of a negative
    number is NaN. *)
Definition flog2 (x : f64) : f64 :=
  match x with
  | NaN => NaN
  | PInf => PInf
  | NInf => NaN
  | Fin a =>
      if Rlt_dec 0 a then Fin (ln a / ln 2)
      else if Rlt_dec a 0 then NaN
      else NInf
  end.

(** [sqrt(x)] *)
Definition fsqrt (x : f64) : f64 :=
  match x with
  | NaN => NaN
  | PInf => PInf
  | NInf => NaN
  | Fin a => if Rlt_dec a 0 then NaN else Fin (sqrt a)
  end.

(** Whether a real is an integer, and whether it is an odd one. *)
Definition is_integer (y : R) : bool :=
  if Req_dec_T (IZR (Int_part y)) y then true else false.

Definition is_odd_integer (y : R) : bool :=
  is_integer y && Z.odd (Int_part y).

(** [x ** y] for a finite exponent [y] (C99 [pow]): a negative finite base
    with a non-integer exponent gives NaN. *)
Definition fpow (x : f64) (y : R) : f64 :=
  if Req_dec_T y 0 then Fin 1 else
  match x with
  | NaN => NaN
  | PInf => if Rlt_dec 0 y then PInf else Fin 0
  | NInf =>
      if Rlt_dec 0 y then (if is_odd_integer y then NInf else PInf)
      else Fin 0
  | Fin a =>
      if Rlt_dec 0 a then Fin (Rpower a y)
      else if Rlt_dec a 0 then
        (if is_integer y then Fin (powerRZ a (Int_part y)) else NaN)
      else (if Rlt_dec 0 y then Fin 0 else PInf)
  end.

(** ** One-dimensional arrays *)

Definition ndarray : Type := list f64.

(** Element-wise application of a binary operation with NumPy's
    broadcasting of one-dimensional shapes. *)
Definition zip_with {A : Type} (f : A -> A -> A) (xs ys : list A) : list A :=
  map (fun p => f (fst p) (snd p)) (combine xs ys).

Definition broadcast {A : Type} (f : A -> A -> A) (xs ys : list A)
  : result (list A) :=
  if (length xs =? length ys)%nat then Ok (zip_with f xs ys)
  else
    match xs, ys with
    | [x], _ => Ok (map (f x) ys)
    | _, [y] => Ok (map (fun x => f x y) xs)
    | _, _ => Raise ValueError
    end.

Definition np_add : ndarray -> ndarray -> result ndarray := broadcast fadd.
Definition np_mul : ndarray -> ndarray -> result ndarray := broadcast fmul.

Definition np_log2 (a : ndarray) : ndarray := map flog2 a.
Definition np_sqrt (a : ndarray) : ndarray := map fsqrt a.
Definition np_abs (a : ndarray) : ndarray := map fabs a.
Definition np_isneginf (a : ndarray) : list bool := map isneginf a.

(** [a ** y] with a Python scalar exponent *)
Definition np_power (a : ndarray) (y : R) : ndarray :=
  map (fun x => fpow x y) a.

(** [a ** 2], which NumPy evaluates as the square [a * a] *)
Definition np_square (a : ndarray) : ndarray := map (fun x => fmul x x) a.

(** [c * a], [a / c] and [a - c] with a Python scalar [c] *)
Definition scalar_mul (c : f64) (a : ndarray) : ndarray := map (fmul c) a.
Definition div_scalar (a : ndarray) (c : f64) : ndarray :=
  map (fun x => fdiv x c) a.
Definition sub_scalar (a : ndarray) (c : f64) : ndarray :=
  map (fun x => fsub x c) a.

(** [a[mask] = v]: the array with [v] written at the positions the boolean
    mask selects.  The mask has the shape of [a]. *)
Fixpoint setitem_mask (a : ndarray) (mask : list bool) (v : f64) : ndarray :=
  match a, mask with
  | x :: a', b :: mask' => (if b then v else x) :: setitem_mask a' mask' v
  | _, _ => a
  end.

(** ** The cost functions *)

(** [return m + n * np.log2(n)] *)
Definition cost_dijkstra (n m : ndarray) : result ndarray :=
  t <- np_mul n (np_log2 n) ;;
  np_add m t.

(** The exponent [2/3] *)
Definition two_thirds : R := 2 / 3.

(** [log_val = np.log2(n); log_val[np.isneginf(log_val)] = 0;
    return m * (log_val)**(2/3)] *)
Definition guarded_log (n : ndarray) : ndarray :=
  let log_val := np_log2 n in
  setitem_mask log_val (np_isneginf log_val) (Fin 0).

Definition cost_duan_et_al (n m : ndarray) : result ndarray :=
  let log_val := guarded_log n in
  np_mul m (np_power log_val two_thirds).

(** [return np.sqrt(n) * m] *)
Definition cost_quantum_grover (n m : ndarray) : result ndarray :=
  np_mul (np_sqrt n) m.

(** [return l * np.sqrt(m)] *)
Definition cost_quantum_wesolowski (n m l : ndarray) : result ndarray :=
  np_mul l (np_sqrt m).

(** ** Reductions and indexing *)

(** The larger of two values as [np.maximum] gives it: NaN propagates. *)
Definition fmax (x y : f64) : f64 :=
  if isnan x then x else if isnan y then y else if fge x y then x else y.

Definition fmin (x y : f64) : f64 :=
  if isnan x then x else if isnan y then y else if fge y x then x else y.

(** [a.max()] and [a.min()]; both raise [ValueError] on an empty array. *)
Definition np_max (a : ndarray) : result f64 :=
  match a with
  | [] => Raise ValueError
  | x :: rest => Ok (fold_left fmax rest x)
  end.

Definition np_min (a : ndarray) : result f64 :=
  match a with
  | [] => Raise ValueError
  | x :: rest => Ok (fold_left fmin rest x)
  end.

(** The scan of [np.argmin]: [mp] is the smallest value seen so far and
    [min_ind] its index; a later element replaces it only when it is not
    [>= mp], and the scan stops at the first NaN. *)
Fixpoint argmin_scan (ip : ndarray) (i : nat) (mp : f64) (min_ind : nat) : nat :=
  match ip with
  | [] => min_ind
  | x :: rest =>
      if negb (fge x mp) then
        (if isnan x then i else argmin_scan rest (S i) x i)
      else argmin_scan rest (S i) mp min_ind
  end.

(** [np.argmin(a)]; raises [ValueError] on an empty array. *)
Definition np_argmin (a : ndarray) : result nat :=
  match a with
  | [] => Raise ValueError
  | x :: rest => if isnan x then Ok 0%nat else Ok (argmin_scan rest 1 x 0)
  end.

(** [a[idx]] for a non-negative index *)
Definition getitem (a : ndarray) (idx : nat) : result f64 :=
  match nth_error a idx with
  | Some x => Ok x
  | None => Raise IndexError
  end.

Fixpoint mapM {A B : Type} (f : A -> result B) (l : list A) : result (list B) :=
  match l with
  | [] => Ok []
  | x :: rest =>
      y <- f x ;;
      ys <- mapM f rest ;;
      Ok (y :: ys)
  end.

(** ** Sweeps *)

(** [y[-1] = v] *)
Definition set_last (y : list R) (v : R) : list R :=
  match y with
  | [] => []
  | _ :: _ => removelast y ++ [v]
  end.

(** [np.linspace(start, stop, num)] with the end point included. *)
Definition np_linspace (start stop : R) (num : nat) : list R :=
  let div := (num - 1)%nat in
  let delta := stop - start in
  let y := map INR (seq 0 num) in
  let y :=
    if (0 <? div)%nat then
      let step := delta / INR div in
      if Req_dec_T step 0 then map (fun v => v / INR div * delta) y
      else map (fun v => v * step) y
    else map (fun v => v * delta) y in
  let y := map (fun v => v + start) y in
  if (1 <? num)%nat then set_last y stop else y.

(** [np.logspace(start, stop, num)]: ten to the power of each point of the
    linear sweep of exponents. *)
Definition np_logspace (start stop : R) (num : nat) : ndarray :=
  map (fun y => Fin (Rpower 10 y)) (np_linspace start stop num).

(** ** Cost tables *)

Definition dict : Type := list (string * ndarray).

(** The dictionary literal both scripts build: the three series that are
    always computed, in insertion order. *)
Definition base_costs (n m : ndarray) : result dict :=
  d <- cost_dijkstra n m ;;
  u <- cost_duan_et_al n m ;;
  g <- cost_quantum_grover n m ;;
  Ok [("Dijkstra"%string, d); ("Duan et al."%string, u);
      ("Grover SSSP"%string, g)].

(** ** Sample extraction *)

(** A printed row: the chosen size and each series' cost at that index. *)
Definition row : Type := (f64 * list f64)%type.

(** [idx = np.argmin(np.abs(n_values - n_point))] *)
Definition nearest_index (n_values : ndarray) (n_point : f64) : result nat :=
  np_argmin (np_abs (sub_scalar n_values n_point)).

Definition sample_row (n_values : ndarray) (costs : dict) (idx : nat)
  : result row :=
  x <- getitem n_values idx ;;
  cs <- mapM (fun kv => getitem (snd kv) idx) costs ;;
  Ok (x, cs).

(** *** [run_analysis.py] *)

Definition n_values : ndarray := np_logspace 3 9 100.
Definition m_sparse : ndarray := scalar_mul (Fin 10) n_values.
Definition costs_sparse : result dict := base_costs n_values m_sparse.
Definition points_sparse : list f64 := [Fin 1e3; Fin 1e6; Fin 1e9].

Definition n_values_dense : ndarray := np_logspace 3 5 100.
Definition m_dense : ndarray :=
  div_scalar (np_square n_values_dense) (Fin 100).
Definition costs_dense : result dict := base_costs n_values_dense m_dense.
Definition points_dense : list f64 := [Fin 1e3; Fin 1e4; Fin 1e5].

(** The sample loops of scenarios 1 and 2: every listed point is looked up,
    there is no range test. *)
Definition sample_loop_basic (n_values : ndarray) (costs : dict)
  (points : list f64) : result (list row) :=
  mapM (fun n_point =>
          idx <- nearest_index n_values n_point ;;
          sample_row n_values costs idx) points.

Definition samples_sparse : result (list row) :=
  costs <- costs_sparse ;;
  sample_loop_basic n_values costs points_sparse.

Definition samples_dense : result (list row) :=
  costs <- costs_dense ;;
  sample_loop_basic n_values_dense costs points_dense.

(** *** [run_comprehensive_analysis.py] *)

(** The points of the sample loop of [run_and_plot_scenario]. *)
Definition sample_points : list f64 := [Fin 1e4; Fin 1e6; Fin 1e8].

(** One iteration of the loop, up to the choice of the index: [None] when
    the [continue] is taken.  The [or] evaluates [n_values.min()] only when
    its first test is false. *)
Definition select_sample (n_values : ndarray) (n_point : f64)
  : result (option nat) :=
  mx <- np_max n_values ;;
  skip <- (if fgt n_point mx then Ok true
           else mn <- np_min n_values ;; Ok (flt n_point mn)) ;;
  if skip : bool then Ok None
  else idx <- nearest_index n_values n_point ;; Ok (Some idx).

Fixpoint sample_loop (n_values : ndarray) (costs : dict) (points : list f64)
  : result (list row) :=
  match points with
  | [] => Ok []
  | n_point :: rest =>
      sel <- select_sample n_values n_point ;;
      match sel with
      | None => sample_loop n_values costs rest
      | Some idx =>
          r <- sample_row n_values costs idx ;;
          rs <- sample_loop n_values costs rest ;;
          Ok (r :: rs)
      end
  end.

(** The cost table of [run_and_plot_scenario]: the three series of the
    dictionary literal, and the fourth when [l_values is not None]. *)
Definition scenario_costs (n_values : ndarray)
  (m_func : ndarray -> ndarray) (l_func : option (ndarray -> ndarray))
  : result dict :=
  let m_values := m_func n_values in
  let l_values := option_map (fun f => f n_values) l_func in
  costs <- base_costs n_values m_values ;;
  match l_values with
  | Some l =>
      w <- cost_quantum_wesolowski n_values m_values l ;;
      Ok (costs ++ [("Wesolowski et al."%string, w)])
  | None => Ok costs
  end.

(** The computing part of [run_and_plot_scenario]: the cost table and the
    rows of the sample loop.  Printing and plotting are left out. *)
Definition run_and_plot_scenario (n_values : ndarray)
  (m_func : ndarray -> ndarray) (l_func : option (ndarray -> ndarray))
  : result (dict * list row) :=
  costs <- scenario_costs n_values m_func l_func ;;
  rows <- sample_loop n_values costs sample_points ;;
  Ok (costs, rows).

Definition n_vals : ndarray := np_logspace 3 9 100.
Definition n_vals_dense : ndarray := np_logspace 3 5 100.

(** The four calls of the script, with their lambdas. *)
Record scenario : Type := {
  scenario_name : string;
  sc_n_values : ndarray;
  m_func : ndarray -> ndarray;
  l_func : option (ndarray -> ndarray)
}.

Definition sparse_short_path : scenario := {|
  scenario_name := "Sparse Graph, Short Path";
  sc_n_values := n_vals;
  m_func := fun n => scalar_mul (Fin 10) n;
  l_func := Some (fun n => np_square (np_log2 n)) |}.

Definition sparse_long_path : scenario := {|
  scenario_name := "Sparse Graph, Long Path";
  sc_n_values := n_vals;
  m_func := fun n => scalar_mul (Fin 10) n;
  l_func := Some (fun n => div_scalar n (Fin 10)) |}.

Definition dense_short_path : scenario := {|
  scenario_name := "Dense Graph, Short Path";
  sc_n_values := n_vals_dense;
  m_func := fun n => div_scalar (np_square n) (Fin 100);
  l_func := Some (fun n => np_square (np_log2 n)) |}.

Definition dense_long_path : scenario := {|
  scenario_name := "Dense Graph, Long Path";
  sc_n_values := n_vals_dense;
  m_func := fun n => div_scalar (np_square n) (Fin 100);
  l_func := Some (fun n => div_scalar n (Fin 10)) |}.

Definition scenarios : list scenario :=
  [sparse_short_path; sparse_long_path; dense_short_path; dense_long_path].

Definition run (sc : scenario) : result (dict * list row) :=
  run_and_plot_scenario (sc_n_values sc) (m_func sc) (l_func sc).

(** ** The cost functions on array objects

    In Python the arguments of a cost function are references to mutable
    array objects.  Here a heap maps addresses to array objects; every NumPy
    operation that returns an array allocates a new object, and the item
    assignment [log_val[mask] = 0] overwrites the object [log_val] refers
    to. *)

Module Store.

Inductive object : Type :=
| FloatArray (a : ndarray)
| BoolArray (b : list bool).

Definition heap : Type := list object.
Definition ref : Type := nat.

(** A computation that reads and writes the heap and may raise. *)
Definition M (A : Type) : Type := heap -> result (A * heap).

Definition mbind {A B : Type} (c : M A) (k : A -> M B) : M B :=
  fun h =>
    match c h with
    | Ok (a, h') => k a h'
    | Raise e => Raise e
    end.

Notation "x <~ c ;; k" := (mbind c (fun x => k))
  (at level 61, c at next level, right associativity).

Definition lift {A : Type} (c : result A) : M A :=
  fun h =>
    match c with
    | Ok a => Ok (a, h)
    | Raise e => Raise e
    end.

(** A new object at the first unused address. *)
Definition alloc (o : object) : M ref :=
  fun h => Ok (length h, h ++ [o]).

Definition read_float (r : ref) : M ndarray :=
  fun h =>
    match nth_error h r with
    | Some (FloatArray a) => Ok (a, h)
    | _ => Raise TypeError
    end.

Definition read_bool (r : ref) : M (list bool) :=
  fun h =>
    match nth_error h r with
    | Some (BoolArray b) => Ok (b, h)
    | _ => Raise TypeError
    end.

Fixpoint update (h : heap) (r : ref) (o : object) : heap :=
  match h, r with
  | [], _ => []
  | _ :: h', O => o :: h'
  | x :: h', S r' => x :: update h' r' o
  end.

(** Overwrite the object at an address in place. *)
Definition write (r : ref) (o : object) : M unit :=
  fun h => Ok (tt, update h r o).

Definition np_log2 (x : ref) : M ref :=
  a <~ read_float x ;;
  alloc (FloatArray (np_log2 a)).

Definition np_sqrt (x : ref) : M ref :=
  a <~ read_float x ;;
  alloc (FloatArray (np_sqrt a)).

Definition np_isneginf (x : ref) : M ref :=
  a <~ read_float x ;;
  alloc (BoolArray (np_isneginf a)).

Definition np_power (x : ref) (y : R) : M ref :=
  a <~ read_float x ;;
  alloc (FloatArray (np_power a y)).

Definition np_mul (x y : ref) : M ref :=
  a <~ read_float x ;;
  b <~ read_float y ;;
  c <~ lift (np_mul a b) ;;
  alloc (FloatArray c).

Definition np_add (x y : ref) : M ref :=
  a <~ read_float x ;;
  b <~ read_float y ;;
  c <~ lift (np_add a b) ;;
  alloc (FloatArray c).

(** [x[mask] = v] *)
Definition setitem_mask (x mask : ref) (v : f64) : M unit :=
  a <~ read_float x ;;
  b <~ read_bool mask ;;
  write x (FloatArray (setitem_mask a b v)).

Definition cost_dijkstra (n m : ref) : M ref :=
  lg <~ np_log2 n ;;
  t <~ np_mul n lg ;;
  np_add m t.

Definition cost_duan_et_al (n m : ref) : M ref :=
  log_val <~ np_log2 n ;;
  mask <~ np_isneginf log_val ;;
  _ <~ setitem_mask log_val mask (Fin 0) ;;
  p <~ np_power log_val two_thirds ;;
  np_mul m p.

Definition cost_quantum_grover (n m : ref) : M ref :=
  s <~ np_sqrt n ;;
  np_mul s m.

Definition cost_quantum_wesolowski (n m l : ref) : M ref :=
  s <~ np_sqrt m ;;
  np_mul l s.

(** The objects of [h] are found unchanged, at their addresses, in [h']. *)
Definition unchanged (h h' : heap) : Prop :=
  forall (r : ref) (o : object),
    nth_error h r = Some o -> nth_error h' r = Some o.

End Store.

(** ** Mathematical reference functions *)

(** The base-2 logarithm of a positive real. *)
Definition Rlog2 (a : R) : R := ln a / ln 2.

(** The guarded logarithm, element by element. *)
Definition guard (x : f64) : f64 := if isneginf x then Fin 0 else x.

(** The exponent at index [i] of a linear sweep of [num] points: the end
    point for the last of several points, and a multiple of the step
    otherwise. *)
Definition linspace_point (start stop : R) (num i : nat) : R :=
  if ((1 <? num) && (S i =? num))%nat then stop
  else start + INR i * ((stop - start) / INR (num - 1)).

(** The sizes of a logarithmic sweep as real numbers. *)
Definition logspace_sizes (start stop : R) (num : nat) : list R :=
  map (Rpower 10) (np_linspace start stop num).

(** ** Predicates on values, series and sweeps *)

(** A finite value, a finite value that is not negative, a finite value
    that is at least one, and a finite positive value. *)
Definition finite (x : f64) : Prop := exists r, x = Fin r.
Definition finite_nonneg (x : f64) : Prop := exists r, x = Fin r /\ 0 <= r.
Definition at_least_one (x : f64) : Prop := exists r, x = Fin r /\ 1 <= r.
Definition positive (x : f64) : Prop := exists r, x = Fin r /\ 0 < r.


(** A series whose values never decrease along the indices, by the
    comparison [>=] of the values. *)
Definition nondecreasing (l : ndarray) : Prop :=
  forall (i j : nat) (x y : f64),
    (i <= j)%nat ->
    nth_error l i = Some x -> nth_error l j = Some y -> fge y x = true.

(** [v] is the smallest, respectively the largest, value of the sweep. *)
Definition sweep_min (ns : list R) (v : R) : Prop :=
  In v ns /\ forall r, In r ns -> v <= r.
Definition sweep_max (ns : list R) (v : R) : Prop :=
  In v ns /\ forall r, In r ns -> r <= v.


(** [idx] is the first index at which the list takes its smallest value. *)
Definition first_minimum (l : list R) (idx : nat) : Prop :=
  exists v,
    nth_error l idx = Some v /\
    (forall j x, nth_error l j = Some x -> v <= x) /\
    (forall j x, (j < idx)%nat -> nth_error l j = Some x -> v < x).

(** [idx] is the first index of the sweep [ns] whose value is nearest to
    [q] in absolute difference. *)
Definition nearest_first (ns : list R) (q : R) (idx : nat) : Prop :=
  first_minimum (map (fun r => Rabs (r - q)) ns) idx.

(** The labels of the cost table of a scenario: three always, and the
    fourth when a path-length function is supplied. *)
Definition series_labels (l_func : option (ndarray -> ndarray)) : list string :=
  ["Dijkstra"%string; "Duan et al."%string; "Grover SSSP"%string] ++
  match l_func with
  | Some _ => ["Wesolowski et al."%string]
  | None => []
  end.

(** A series aligned to the sweep, with finite non-negative values. *)
Definition series_ok (sweep : ndarray) (kv : string * ndarray) : Prop :=
  length (snd kv) = length sweep /\ Forall finite_nonneg (snd kv).

(** A derived sequence aligned to the sweep, with finite non-negative
    values. *)
Definition aligned_nonneg (sweep derived : ndarray) : Prop :=
  length derived = length sweep /\ Forall finite_nonneg derived.

(** An operation that, when it returns, has appended one new object to the
    heap and returns its address. *)
Definition allocates (c : Store.M Store.ref) : Prop :=
  forall h r h', c h = Ok (r, h') -> exists o, h' = h ++ [o] /\ r = length h.

(** ** The sample points of each scenario *)






(** ** Reporting: the table header and the plotted curves *)

(** [c * k]: the character repeated [k] times *)
Definition repeat_char (c : Ascii.ascii) (k : nat) : string :=
  string_of_list_ascii (repeat c k).

(** [f"{s:>w}"]: the string right-aligned with spaces in a field of width
    [w]; a longer string is kept whole. *)
Definition rjust (w : nat) (s : string) : string :=
  String.append (repeat_char " "%char (w - String.length s)) s.

(** ["".join(parts)] *)
Definition join (parts : list string) : string :=
  fold_right String.append EmptyString parts.

(** [header = f"{'n':>10s}" +
      "".join([f" | {name:>20s}" for name in costs.keys()])] *)
Definition header (costs : dict) : string :=
  String.append (rjust 10 "n")
    (join (map (fun kv => String.append " | " (rjust 20 (fst kv))) costs)).

(** [print("-" * len(header))] *)
Definition separator (costs : dict) : string :=
  repeat_char "-"%char (String.length (header costs)).

(** What the plotting stage can raise: [KeyError] from a lookup in the cost
    table, and the [ValueError] of [plt.plot] on an [x] and a [y] of
    different lengths. *)
Inductive plot_exn : Type :=
| KeyError (key : string)
| DimensionError.

Inductive outcome (A : Type) : Type :=
| Done (a : A)
| Fail (e : plot_exn).
Arguments Done {A} a.
Arguments Fail {A} e.

Definition obind {A B : Type} (c : outcome A) (k : A -> outcome B)
  : outcome B :=
  match c with
  | Done a => k a
  | Fail e => Fail e
  end.

Notation "x <~~ c ;; k" := (obind c (fun x => k))
  (at level 61, c at next level, right associativity).

(** [key in costs] *)
Fixpoint dict_mem (costs : dict) (key : string) : bool :=
  match costs with
  | [] => false
  | (k, _) :: rest => if String.eqb k key then true else dict_mem rest key
  end.

(** [costs[key]] *)
Fixpoint dict_get (costs : dict) (key : string) : outcome ndarray :=
  match costs with
  | [] => Fail (KeyError key)
  | (k, v) :: rest => if String.eqb k key then Done v else dict_get rest key
  end.

(** A curve handed to the chart: [plt.plot(x, y, label=...)]. *)
Record curve : Type := {
  curve_x : ndarray;
  curve_y : ndarray;
  curve_label : string
}.

Definition plt_plot (x y : ndarray) (label : string) : outcome curve :=
  if (length x =? length y)%nat
  then Done {| curve_x := x; curve_y := y; curve_label := label |}
  else Fail DimensionError.

(** The [plt.plot] calls of [run_and_plot_scenario]. *)
Definition plot_curves (n_values : ndarray) (costs : dict)
  : outcome (list curve) :=
  d <~~ dict_get costs "Dijkstra" ;;
  c1 <~~ plt_plot n_values d "Dijkstra (Classical)" ;;
  u <~~ dict_get costs "Duan et al." ;;
  c2 <~~ plt_plot n_values u "Duan et al. (New Classical)" ;;
  g <~~ dict_get costs "Grover SSSP" ;;
  c3 <~~ plt_plot n_values g "Grover SSSP (Quantum)" ;;
  if dict_mem costs "Wesolowski et al." then
    w <~~ dict_get costs "Wesolowski et al." ;;
    c4 <~~ plt_plot n_values w "Wesolowski et al. (Quantum)" ;;
    Done [c1; c2; c3; c4]
  else Done [c1; c2; c3].

(** * Properties *)

(** ** Real-number facts used below *)

Lemma ln_2_pos : 0 < ln 2.
Proof. rewrite <- ln_1. apply ln_increasing; lra. Qed.

Lemma Rlog2_1 : Rlog2 1 = 0.
Proof. unfold Rlog2. rewrite ln_1. unfold Rdiv. ring. Qed.

Lemma Rlog2_nonneg (a : R) : 1 <= a -> 0 <= Rlog2 a.
Proof.
  intros Ha. unfold Rlog2.
  assert (0 <= ln a).
  { destruct Ha as [Ha | <-]; [| rewrite ln_1; lra].
    rewrite <- ln_1. left. apply ln_increasing; lra. }
  apply Rmult_le_pos; [assumption |].
  left. apply Rinv_0_lt_compat, ln_2_pos.
Qed.

Lemma Rlog2_neg (a : R) : 0 < a -> a < 1 -> Rlog2 a < 0.
Proof.
  intros H0 H1. unfold Rlog2.
  assert (ln a < 0) by (rewrite <- ln_1; apply ln_increasing; lra).
  assert (0 < / ln 2) by apply Rinv_0_lt_compat, ln_2_pos.
  unfold Rdiv. nra.
Qed.

Lemma Int_part_two_thirds : Int_part two_thirds = 0%Z.
Proof.
  unfold Int_part, two_thirds.
  rewrite <- (tech_up (2 / 3) 1); [reflexivity | lra | lra].
Qed.

Lemma two_thirds_not_integer : is_integer two_thirds = false.
Proof.
  unfold is_integer. rewrite Int_part_two_thirds.
  destruct (Req_dec_T (IZR 0) two_thirds) as [E | _]; [| reflexivity].
  unfold two_thirds in E. lra.
Qed.

(** ** Scalar evaluation lemmas *)

Lemma flog2_pos (a : R) : 0 < a -> flog2 (Fin a) = Fin (Rlog2 a).
Proof.
  intros Ha. unfold flog2. destruct (Rlt_dec 0 a); [reflexivity | contradiction].
Qed.

Lemma flog2_zero : flog2 (Fin 0) = NInf.
Proof.
  unfold flog2. destruct (Rlt_dec 0 0); [lra |]. reflexivity.
Qed.

Lemma fsqrt_nonneg (a : R) : 0 <= a -> fsqrt (Fin a) = Fin (sqrt a).
Proof.
  intros Ha. unfold fsqrt. destruct (Rlt_dec a 0); [lra | reflexivity].
Qed.

Lemma fpow_two_thirds_pos (a : R) :
  0 < a -> fpow (Fin a) two_thirds = Fin (Rpower a two_thirds).
Proof.
  intros Ha. unfold fpow.
  destruct (Req_dec_T two_thirds 0) as [E | _]; [unfold two_thirds in E; lra |].
  destruct (Rlt_dec 0 a); [reflexivity | contradiction].
Qed.

Lemma fpow_two_thirds_zero : fpow (Fin 0) two_thirds = Fin 0.
Proof.
  unfold fpow.
  destruct (Req_dec_T two_thirds 0) as [E | _]; [unfold two_thirds in E; lra |].
  destruct (Rlt_dec 0 0); [lra |].
  destruct (Rlt_dec 0 two_thirds) as [_ | N]; [reflexivity |].
  unfold two_thirds in N. lra.
Qed.

Lemma fpow_two_thirds_neg (a : R) : a < 0 -> fpow (Fin a) two_thirds = NaN.
Proof.
  intros Ha. unfold fpow.
  destruct (Req_dec_T two_thirds 0) as [E | _]; [unfold two_thirds in E; lra |].
  destruct (Rlt_dec 0 a); [lra |].
  destruct (Rlt_dec a 0); [| contradiction].
  rewrite two_thirds_not_integer. reflexivity.
Qed.

(** ** Array lemmas *)

Lemma zip_with_length {A : Type} (f : A -> A -> A) (xs ys : list A) :
  length xs = length ys -> length (zip_with f xs ys) = length xs.
Proof.
  intros H. unfold zip_with.
  rewrite length_map, length_combine, <- H. apply Nat.min_id.
Qed.

Lemma zip_with_nth_error {A : Type} (f : A -> A -> A) (xs ys : list A) i x y :
  nth_error xs i = Some x -> nth_error ys i = Some y ->
  nth_error (zip_with f xs ys) i = Some (f x y).
Proof.
  revert ys i. induction xs as [| x0 xs IH]; intros [| y0 ys] [| i]; simpl;
    try discriminate.
  - intros [= ->] [= ->]. reflexivity.
  - intros Hx Hy. apply (IH ys i Hx Hy).
Qed.

Lemma zip_with_Forall {A : Type} (f : A -> A -> A) (P Q R : A -> Prop) xs ys :
  (forall x y, P x -> Q y -> R (f x y)) ->
  Forall P xs -> Forall Q ys -> Forall R (zip_with f xs ys).
Proof.
  intros Hf Hxs. revert ys. induction Hxs as [| x xs Hx _ IH]; intros ys Hys.
  - constructor.
  - destruct Hys as [| y ys Hy Hys]; [constructor |].
    unfold zip_with. simpl. constructor; [apply Hf; assumption |].
    apply IH, Hys.
Qed.

Lemma broadcast_aligned {A : Type} (f : A -> A -> A) (xs ys : list A) :
  length xs = length ys -> broadcast f xs ys = Ok (zip_with f xs ys).
Proof.
  intros H. unfold broadcast. rewrite H, Nat.eqb_refl. reflexivity.
Qed.

Lemma setitem_mask_length a mask v : length (setitem_mask a mask v) = length a.
Proof.
  revert mask. induction a as [| x a IH]; intros [| b mask]; simpl; auto.
Qed.

Lemma guarded_log_length n : length (guarded_log n) = length n.
Proof.
  unfold guarded_log, np_log2. rewrite setitem_mask_length. apply length_map.
Qed.

Lemma setitem_mask_isneginf (a : ndarray) :
  setitem_mask a (np_isneginf a) (Fin 0) = map guard a.
Proof.
  unfold np_isneginf.
  induction a as [| x a IH]; simpl; [reflexivity |].
  rewrite IH. reflexivity.
Qed.

Lemma guarded_log_map n : guarded_log n = map (fun x => guard (flog2 x)) n.
Proof.
  unfold guarded_log. rewrite setitem_mask_isneginf.
  unfold np_log2. apply map_map.
Qed.

(** ** The cost functions on aligned arrays *)

Lemma cost_dijkstra_aligned n m :
  length n = length m ->
  cost_dijkstra n m =
    Ok (zip_with fadd m (zip_with fmul n (np_log2 n))).
Proof.
  intros H. unfold cost_dijkstra, np_mul, np_add.
  rewrite broadcast_aligned by (unfold np_log2; now rewrite length_map).
  simpl. apply broadcast_aligned.
  rewrite zip_with_length by (unfold np_log2; now rewrite length_map).
  symmetry. exact H.
Qed.

Lemma cost_duan_et_al_aligned n m :
  length n = length m ->
  cost_duan_et_al n m =
    Ok (zip_with fmul m (np_power (guarded_log n) two_thirds)).
Proof.
  intros H. unfold cost_duan_et_al, np_mul. apply broadcast_aligned.
  unfold np_power. rewrite length_map, guarded_log_length. symmetry. exact H.
Qed.

Lemma cost_quantum_grover_aligned n m :
  length n = length m ->
  cost_quantum_grover n m = Ok (zip_with fmul (np_sqrt n) m).
Proof.
  intros H. unfold cost_quantum_grover, np_mul. apply broadcast_aligned.
  unfold np_sqrt. now rewrite length_map.
Qed.

Lemma cost_quantum_wesolowski_aligned n m l :
  length l = length m ->
  cost_quantum_wesolowski n m l = Ok (zip_with fmul l (np_sqrt m)).
Proof.
  intros H. unfold cost_quantum_wesolowski, np_mul. apply broadcast_aligned.
  unfold np_sqrt. now rewrite length_map.
Qed.

(** C2: on arrays [n] and [m] of equal length with every [n[i] >= 1],
    [cost_dijkstra] returns an array of that length whose [i]-th element is
    [m[i] + n[i] * log2(n[i])], in input order; on [n = [1]], [m = [0]] it
    returns exactly [[0]]. *)
Theorem cost_dijkstra_elementwise :
  forall n m : ndarray,
    length n = length m ->
    (forall x, In x n -> exists a, x = Fin a /\ 1 <= a) ->
    (exists c,
        cost_dijkstra n m = Ok c /\
        length c = length n /\
        (forall i a mi,
            nth_error n i = Some (Fin a) ->
            nth_error m i = Some mi ->
            nth_error c i = Some (fadd mi (Fin (a * Rlog2 a))))) /\
    cost_dijkstra [Fin 1] [Fin 0] = Ok [Fin 0].
Proof.
  intros n m Hlen Hn. split.
  - exists (zip_with fadd m (zip_with fmul n (np_log2 n))).
    split; [apply cost_dijkstra_aligned, Hlen |]. split.
    + rewrite zip_with_length; [symmetry; exact Hlen |].
      rewrite zip_with_length by (unfold np_log2; now rewrite length_map).
      symmetry. exact Hlen.
    + intros i a mi Hi Hm.
      apply zip_with_nth_error; [exact Hm |].
      destruct (Hn (Fin a) (nth_error_In _ _ Hi)) as (a' & [= <-] & Ha).
      replace (Fin (a * Rlog2 a)) with (fmul (Fin a) (flog2 (Fin a)))
        by (rewrite flog2_pos by lra; reflexivity).
      apply zip_with_nth_error; [exact Hi |].
      unfold np_log2. now rewrite nth_error_map, Hi.
  - rewrite cost_dijkstra_aligned by reflexivity.
    unfold zip_with, np_log2. cbn [map combine fst snd].
    rewrite flog2_pos by lra. rewrite Rlog2_1. cbn [fmul fadd].
    do 3 f_equal. ring.
Qed.

Lemma cost_dijkstra_elementwise_witness :
  exists c, cost_dijkstra [Fin 2; Fin 8] [Fin 20; Fin 80] = Ok c /\
            length c = 2%nat.
Proof.
  destruct (cost_dijkstra_elementwise [Fin 2; Fin 8] [Fin 20; Fin 80])
    as [(c & Hc & Hl & _) _].
  - reflexivity.
  - intros x [<- | [<- | []]]; eexists; (split; [reflexivity | lra]).
  - exists c. split; [exact Hc | exact Hl].
Defined.

(** C8: on a sweep holding the size [1], [cost_duan_et_al] returns [0] at
    that position, for every finite [m >= 0]. *)
Theorem cost_duan_et_al_at_one :
  forall b : R, 0 <= b -> cost_duan_et_al [Fin 1] [Fin b] = Ok [Fin 0].
Proof.
  intros b _. rewrite cost_duan_et_al_aligned by reflexivity.
  rewrite guarded_log_map. unfold zip_with, np_power.
  cbn [map combine fst snd].
  rewrite flog2_pos by lra. rewrite Rlog2_1. cbn [guard isneginf].
  rewrite fpow_two_thirds_zero. cbn [fmul].
  do 3 f_equal. ring.
Qed.

Lemma cost_duan_et_al_at_one_witness :
  cost_duan_et_al [Fin 1] [Fin 10] = Ok [Fin 0].
Proof. apply (cost_duan_et_al_at_one 10). lra. Defined.

(** C9: on arrays [n], [m], [l] of equal length with every [m[i] > 0],
    [cost_quantum_wesolowski] returns an array of that length whose [i]-th
    element is [l[i] * sqrt(m[i])]; at [m = 16], [l = 4] it returns [16]. *)
Theorem cost_quantum_wesolowski_elementwise :
  forall n m l : ndarray,
    length n = length m ->
    length l = length m ->
    (forall x, In x m -> exists b, x = Fin b /\ 0 < b) ->
    (exists c,
        cost_quantum_wesolowski n m l = Ok c /\
        length c = length m /\
        (forall i b li,
            nth_error m i = Some (Fin b) ->
            nth_error l i = Some li ->
            nth_error c i = Some (fmul li (Fin (sqrt b))))) /\
    cost_quantum_wesolowski n [Fin 16] [Fin 4] = Ok [Fin 16].
Proof.
  intros n m l _ Hlen Hm. split.
  - exists (zip_with fmul l (np_sqrt m)).
    split; [apply cost_quantum_wesolowski_aligned, Hlen |]. split.
    + rewrite zip_with_length; [exact Hlen |].
      unfold np_sqrt. now rewrite length_map.
    + intros i b li Hi Hl.
      destruct (Hm (Fin b) (nth_error_In _ _ Hi)) as (b' & [= <-] & Hb).
      apply zip_with_nth_error; [exact Hl |].
      unfold np_sqrt. rewrite nth_error_map, Hi. cbn [option_map].
      now rewrite fsqrt_nonneg by lra.
  - rewrite cost_quantum_wesolowski_aligned by reflexivity.
    unfold zip_with, np_sqrt. cbn [map combine fst snd].
    rewrite fsqrt_nonneg by lra.
    replace 16 with (4 * 4) at 1 by ring.
    rewrite sqrt_square by lra. cbn [fmul].
    do 3 f_equal. ring.
Qed.

Lemma cost_quantum_wesolowski_elementwise_witness :
  cost_quantum_wesolowski [Fin 1000] [Fin 16] [Fin 4] = Ok [Fin 16].
Proof.
  apply (cost_quantum_wesolowski_elementwise [Fin 1000] [Fin 16] [Fin 4]).
  - reflexivity.
  - reflexivity.
  - intros x [<- | []]. exists 16. split; [reflexivity | lra].
Defined.

(** C5: on aligned arrays, whatever their values, none of the four cost
    functions raises; each returns an array. *)
Theorem cost_functions_do_not_raise :
  forall n m l : ndarray,
    length n = length m ->
    length l = length m ->
    (exists c, cost_dijkstra n m = Ok c) /\
    (exists c, cost_duan_et_al n m = Ok c) /\
    (exists c, cost_quantum_grover n m = Ok c) /\
    (exists c, cost_quantum_wesolowski n m l = Ok c).
Proof.
  intros n m l Hn Hl. repeat split; eexists.
  - apply cost_dijkstra_aligned, Hn.
  - apply cost_duan_et_al_aligned, Hn.
  - apply cost_quantum_grover_aligned, Hn.
  - apply cost_quantum_wesolowski_aligned, Hl.
Qed.

Lemma cost_functions_do_not_raise_witness :
  exists c, cost_duan_et_al [Fin 0; NaN; Fin 7] [Fin 3; Fin 0; PInf] = Ok c.
Proof.
  apply (cost_functions_do_not_raise
           [Fin 0; NaN; Fin 7] [Fin 3; Fin 0; PInf] [Fin 1; Fin 1; Fin 1]);
    reflexivity.
Defined.

(** ** Finite and non-negative values *)


Lemma at_least_one_positive x : at_least_one x -> positive x.
Proof. intros (r & -> & H). exists r. split; [reflexivity | lra]. Qed.

Lemma positive_nonneg x : positive x -> finite_nonneg x.
Proof. intros (r & -> & H). exists r. split; [reflexivity | lra]. Qed.


Lemma fmul_nonneg x y :
  finite_nonneg x -> finite_nonneg y -> finite_nonneg (fmul x y).
Proof.
  intros (a & -> & Ha) (b & -> & Hb). exists (a * b).
  split; [reflexivity | now apply Rmult_le_pos].
Qed.

Lemma fadd_nonneg x y :
  finite_nonneg x -> finite_nonneg y -> finite_nonneg (fadd x y).
Proof.
  intros (a & -> & Ha) (b & -> & Hb). exists (a + b).
  split; [reflexivity | lra].
Qed.

Lemma fsqrt_finite_nonneg x : finite_nonneg x -> finite_nonneg (fsqrt x).
Proof.
  intros (a & -> & Ha). rewrite fsqrt_nonneg by assumption.
  exists (sqrt a). split; [reflexivity | apply sqrt_pos].
Qed.

Lemma flog2_at_least_one x : at_least_one x -> finite_nonneg (flog2 x).
Proof.
  intros (a & -> & Ha). rewrite flog2_pos by lra.
  exists (Rlog2 a). split; [reflexivity | now apply Rlog2_nonneg].
Qed.

Lemma fpow_two_thirds_nonneg x :
  finite_nonneg x -> finite_nonneg (fpow x two_thirds).
Proof.
  intros (a & -> & [Ha | <-]).
  - rewrite fpow_two_thirds_pos by assumption.
    exists (Rpower a two_thirds). split; [reflexivity |].
    left. unfold Rpower. apply exp_pos.
  - rewrite fpow_two_thirds_zero. exists 0. split; [reflexivity | lra].
Qed.

Lemma guard_finite_nonneg x : finite_nonneg x -> guard x = x.
Proof. intros (a & -> & _). reflexivity. Qed.

(** The guarded logarithm of a size that is zero or at least one. *)
Lemma guard_flog2_nonneg (a : R) :
  a = 0 \/ 1 <= a -> finite_nonneg (guard (flog2 (Fin a))).
Proof.
  intros [-> | Ha].
  - rewrite flog2_zero. exists 0. split; [reflexivity | lra].
  - assert (H : finite_nonneg (flog2 (Fin a))).
    { apply flog2_at_least_one. now exists a. }
    now rewrite guard_finite_nonneg.
Qed.

(** ** The degenerate-logarithm guard *)




(** ** The cost functions on array objects *)

Lemma mbind_Ok {A B : Type} (c : Store.M A) (k : A -> Store.M B) h y h' :
  Store.mbind c k h = Ok (y, h') ->
  exists x h1, c h = Ok (x, h1) /\ k x h1 = Ok (y, h').
Proof.
  unfold Store.mbind. destruct (c h) as [[x h1] | e]; [| discriminate].
  intros H. now exists x, h1.
Qed.

Lemma read_float_Ok x h a h' :
  Store.read_float x h = Ok (a, h') ->
  h' = h /\ nth_error h x = Some (Store.FloatArray a).
Proof.
  unfold Store.read_float.
  destruct (nth_error h x) as [[a0 | b0] |]; try discriminate.
  intros [= -> ->]. now split.
Qed.

Lemma read_bool_Ok x h b h' :
  Store.read_bool x h = Ok (b, h') ->
  h' = h /\ nth_error h x = Some (Store.BoolArray b).
Proof.
  unfold Store.read_bool.
  destruct (nth_error h x) as [[a0 | b0] |]; try discriminate.
  intros [= -> ->]. now split.
Qed.

Lemma lift_Ok {A : Type} (c : result A) h x h' :
  Store.lift c h = Ok (x, h') -> h' = h /\ c = Ok x.
Proof.
  unfold Store.lift. destruct c as [a | e]; [| discriminate].
  intros [= -> ->]. now split.
Qed.

Lemma np_log2_allocates x : allocates (Store.np_log2 x).
Proof.
  intros h r h' H. apply mbind_Ok in H as (a & h1 & Hr & H).
  apply read_float_Ok in Hr as [-> _]. injection H as <- <-. now eexists.
Qed.

Lemma np_sqrt_allocates x : allocates (Store.np_sqrt x).
Proof.
  intros h r h' H. apply mbind_Ok in H as (a & h1 & Hr & H).
  apply read_float_Ok in Hr as [-> _]. injection H as <- <-. now eexists.
Qed.

Lemma np_isneginf_allocates x : allocates (Store.np_isneginf x).
Proof.
  intros h r h' H. apply mbind_Ok in H as (a & h1 & Hr & H).
  apply read_float_Ok in Hr as [-> _]. injection H as <- <-. now eexists.
Qed.

Lemma np_power_allocates x y : allocates (Store.np_power x y).
Proof.
  intros h r h' H. apply mbind_Ok in H as (a & h1 & Hr & H).
  apply read_float_Ok in Hr as [-> _]. injection H as <- <-. now eexists.
Qed.

Lemma np_mul_allocates x y : allocates (Store.np_mul x y).
Proof.
  intros h r h' H. apply mbind_Ok in H as (a & h1 & Hr & H).
  apply read_float_Ok in Hr as [-> _].
  apply mbind_Ok in H as (b & h2 & Hr & H).
  apply read_float_Ok in Hr as [-> _].
  apply mbind_Ok in H as (c & h3 & Hr & H).
  apply lift_Ok in Hr as [-> _]. injection H as <- <-. now eexists.
Qed.

Lemma np_add_allocates x y : allocates (Store.np_add x y).
Proof.
  intros h r h' H. apply mbind_Ok in H as (a & h1 & Hr & H).
  apply read_float_Ok in Hr as [-> _].
  apply mbind_Ok in H as (b & h2 & Hr & H).
  apply read_float_Ok in Hr as [-> _].
  apply mbind_Ok in H as (c & h3 & Hr & H).
  apply lift_Ok in Hr as [-> _]. injection H as <- <-. now eexists.
Qed.

Lemma setitem_mask_overwrites x mask v h u h' :
  Store.setitem_mask x mask v h = Ok (u, h') ->
  exists o, h' = Store.update h x o.
Proof.
  intros H. apply mbind_Ok in H as (a & h1 & Hr & H).
  apply read_float_Ok in Hr as [-> _].
  apply mbind_Ok in H as (b & h2 & Hr & H).
  apply read_bool_Ok in Hr as [-> _]. injection H as _ <-. now eexists.
Qed.

Lemma unchanged_refl h : Store.unchanged h h.
Proof. intros r o H. exact H. Qed.

Lemma unchanged_app h0 h t : Store.unchanged h0 h -> Store.unchanged h0 (h ++ t).
Proof.
  intros U r o H. apply U in H.
  rewrite nth_error_app1; [exact H |].
  apply nth_error_Some. congruence.
Qed.

Lemma update_other h x o r : r <> x -> nth_error (Store.update h x o) r = nth_error h r.
Proof.
  revert x r. induction h as [| y h IH]; intros [| x] [| r] Hne;
    simpl; try reflexivity; try contradiction.
  apply IH. congruence.
Qed.

(** Overwriting an object allocated after [h0] leaves [h0] unchanged. *)
Lemma unchanged_update h0 h x o :
  (length h0 <= x)%nat -> Store.unchanged h0 h ->
  Store.unchanged h0 (Store.update h x o).
Proof.
  intros Hx U r p H. rewrite update_other; [now apply U |].
  assert (r < length h0)%nat by (apply nth_error_Some; congruence). lia.
Qed.

(** C10: a call of any of the four cost functions that returns leaves every
    array object that existed before the call unchanged, in particular the
    objects [n], [m] and [l] refer to; the guard of [cost_duan_et_al]
    overwrites only the array [np.log2] has just allocated. *)
Theorem cost_functions_leave_inputs_unchanged :
  forall (h : Store.heap) (n m l r : Store.ref) (h' : Store.heap),
    Store.cost_dijkstra n m h = Ok (r, h') \/
    Store.cost_duan_et_al n m h = Ok (r, h') \/
    Store.cost_quantum_grover n m h = Ok (r, h') \/
    Store.cost_quantum_wesolowski n m l h = Ok (r, h') ->
    Store.unchanged h h'.
Proof.
  intros h n m l r h' [H | [H | [H | H]]].
  - apply mbind_Ok in H as (lg & h1 & H1 & H).
    apply np_log2_allocates in H1 as (o1 & -> & _).
    apply mbind_Ok in H as (t & h2 & H2 & H).
    apply np_mul_allocates in H2 as (o2 & -> & _).
    apply np_add_allocates in H as (o3 & -> & _).
    do 3 apply unchanged_app. apply unchanged_refl.
  - apply mbind_Ok in H as (log_val & h1 & H1 & H).
    apply np_log2_allocates in H1 as (o1 & -> & ->).
    apply mbind_Ok in H as (mask & h2 & H2 & H).
    apply np_isneginf_allocates in H2 as (o2 & -> & _).
    apply mbind_Ok in H as (u & h3 & H3 & H).
    apply setitem_mask_overwrites in H3 as (o3 & ->).
    apply mbind_Ok in H as (p & h4 & H4 & H).
    apply np_power_allocates in H4 as (o4 & -> & _).
    apply np_mul_allocates in H as (o5 & -> & _).
    do 2 apply unchanged_app. apply unchanged_update; [lia |].
    do 2 apply unchanged_app. apply unchanged_refl.
  - apply mbind_Ok in H as (s & h1 & H1 & H).
    apply np_sqrt_allocates in H1 as (o1 & -> & _).
    apply np_mul_allocates in H as (o2 & -> & _).
    do 2 apply unchanged_app. apply unchanged_refl.
  - apply mbind_Ok in H as (s & h1 & H1 & H).
    apply np_sqrt_allocates in H1 as (o1 & -> & _).
    apply np_mul_allocates in H as (o2 & -> & _).
    do 2 apply unchanged_app. apply unchanged_refl.
Qed.

Lemma cost_functions_leave_inputs_unchanged_witness :
  exists r h',
    Store.cost_duan_et_al 0%nat 1%nat
      [Store.FloatArray [Fin 0; Fin 4]; Store.FloatArray [Fin 10; Fin 40]]
    = Ok (r, h') /\
    Store.unchanged
      [Store.FloatArray [Fin 0; Fin 4]; Store.FloatArray [Fin 10; Fin 40]] h'.
Proof.
  assert (E : exists r h',
             Store.cost_duan_et_al 0%nat 1%nat
               [Store.FloatArray [Fin 0; Fin 4];
                Store.FloatArray [Fin 10; Fin 40]] = Ok (r, h'))
    by (do 2 eexists; reflexivity).
  destruct E as (r & h' & E). exists r, h'. split; [exact E |].
  apply (cost_functions_leave_inputs_unchanged _ 0%nat 1%nat 0%nat r h').
  right. left. exact E.
Defined.

(** *** The object-level functions compute the value-level ones *)

Lemma mbind_run {A B : Type} (c : Store.M A) (k : A -> Store.M B) h x h1 :
  c h = Ok (x, h1) -> Store.mbind c k h = k x h1.
Proof. intros H. unfold Store.mbind. now rewrite H. Qed.

Lemma read_float_run x h a :
  nth_error h x = Some (Store.FloatArray a) ->
  Store.read_float x h = Ok (a, h).
Proof. intros H. unfold Store.read_float. now rewrite H. Qed.

Lemma read_bool_run x h b :
  nth_error h x = Some (Store.BoolArray b) ->
  Store.read_bool x h = Ok (b, h).
Proof. intros H. unfold Store.read_bool. now rewrite H. Qed.

Lemma lookup_old (h t : Store.heap) x o :
  nth_error h x = Some o -> nth_error (h ++ t) x = Some o.
Proof.
  intros H. rewrite nth_error_app1; [exact H |].
  apply nth_error_Some. congruence.
Qed.

Lemma lookup_fresh (h t : Store.heap) o :
  nth_error (h ++ o :: t) (length h) = Some o.
Proof. rewrite nth_error_app2, Nat.sub_diag by lia. reflexivity. Qed.

Lemma lookup_update h x o p :
  nth_error h x = Some p -> nth_error (Store.update h x o) x = Some o.
Proof.
  revert x. induction h as [| y h IH]; intros [| x]; simpl;
    try discriminate; [reflexivity | apply IH].
Qed.

Lemma np_log2_run x h a :
  nth_error h x = Some (Store.FloatArray a) ->
  Store.np_log2 x h = Ok (length h, h ++ [Store.FloatArray (np_log2 a)]).
Proof.
  intros H. unfold Store.np_log2.
  now rewrite (mbind_run _ _ _ _ _ (read_float_run _ _ _ H)).
Qed.

Lemma np_sqrt_run x h a :
  nth_error h x = Some (Store.FloatArray a) ->
  Store.np_sqrt x h = Ok (length h, h ++ [Store.FloatArray (np_sqrt a)]).
Proof.
  intros H. unfold Store.np_sqrt.
  now rewrite (mbind_run _ _ _ _ _ (read_float_run _ _ _ H)).
Qed.

Lemma np_isneginf_run x h a :
  nth_error h x = Some (Store.FloatArray a) ->
  Store.np_isneginf x h =
    Ok (length h, h ++ [Store.BoolArray (np_isneginf a)]).
Proof.
  intros H. unfold Store.np_isneginf.
  now rewrite (mbind_run _ _ _ _ _ (read_float_run _ _ _ H)).
Qed.

Lemma np_power_run x y h a :
  nth_error h x = Some (Store.FloatArray a) ->
  Store.np_power x y h = Ok (length h, h ++ [Store.FloatArray (np_power a y)]).
Proof.
  intros H. unfold Store.np_power.
  now rewrite (mbind_run _ _ _ _ _ (read_float_run _ _ _ H)).
Qed.

Lemma np_mul_run x y h a b c :
  nth_error h x = Some (Store.FloatArray a) ->
  nth_error h y = Some (Store.FloatArray b) ->
  np_mul a b = Ok c ->
  Store.np_mul x y h = Ok (length h, h ++ [Store.FloatArray c]).
Proof.
  intros Hx Hy Hc. unfold Store.np_mul.
  rewrite (mbind_run _ _ _ _ _ (read_float_run _ _ _ Hx)).
  rewrite (mbind_run _ _ _ _ _ (read_float_run _ _ _ Hy)).
  unfold Store.mbind, Store.lift. now rewrite Hc.
Qed.

Lemma np_add_run x y h a b c :
  nth_error h x = Some (Store.FloatArray a) ->
  nth_error h y = Some (Store.FloatArray b) ->
  np_add a b = Ok c ->
  Store.np_add x y h = Ok (length h, h ++ [Store.FloatArray c]).
Proof.
  intros Hx Hy Hc. unfold Store.np_add.
  rewrite (mbind_run _ _ _ _ _ (read_float_run _ _ _ Hx)).
  rewrite (mbind_run _ _ _ _ _ (read_float_run _ _ _ Hy)).
  unfold Store.mbind, Store.lift. now rewrite Hc.
Qed.

Lemma setitem_mask_run x mask v h a b :
  nth_error h x = Some (Store.FloatArray a) ->
  nth_error h mask = Some (Store.BoolArray b) ->
  Store.setitem_mask x mask v h =
    Ok (tt, Store.update h x (Store.FloatArray (setitem_mask a b v))).
Proof.
  intros Hx Hm. unfold Store.setitem_mask.
  rewrite (mbind_run _ _ _ _ _ (read_float_run _ _ _ Hx)).
  now rewrite (mbind_run _ _ _ _ _ (read_bool_run _ _ _ Hm)).
Qed.

(** On array objects holding [a] and [b], which may be one and the same
    object, [cost_duan_et_al] returns a new object holding the value-level
    result. *)
Lemma cost_duan_et_al_refines h n m a b c :
  nth_error h n = Some (Store.FloatArray a) ->
  nth_error h m = Some (Store.FloatArray b) ->
  cost_duan_et_al a b = Ok c ->
  exists r h',
    Store.cost_duan_et_al n m h = Ok (r, h') /\
    nth_error h' r = Some (Store.FloatArray c).
Proof.
  intros Hn Hm Hc. unfold Store.cost_duan_et_al.
  rewrite (mbind_run _ _ _ _ _ (np_log2_run _ _ _ Hn)).
  set (h1 := h ++ [Store.FloatArray (np_log2 a)]).
  assert (L1 : nth_error h1 (length h) = Some (Store.FloatArray (np_log2 a)))
    by apply lookup_fresh.
  rewrite (mbind_run _ _ _ _ _ (np_isneginf_run _ _ _ L1)).
  set (h2 := h1 ++ [Store.BoolArray (np_isneginf (np_log2 a))]).
  assert (L2 : nth_error h2 (length h) = Some (Store.FloatArray (np_log2 a)))
    by (apply lookup_old, L1).
  assert (M2 : nth_error h2 (length h1)
               = Some (Store.BoolArray (np_isneginf (np_log2 a))))
    by apply lookup_fresh.
  rewrite (mbind_run _ _ _ _ _ (setitem_mask_run _ _ (Fin 0) _ _ _ L2 M2)).
  fold (guarded_log a).
  set (h3 := Store.update h2 (length h) (Store.FloatArray (guarded_log a))).
  assert (L3 : nth_error h3 (length h) = Some (Store.FloatArray (guarded_log a)))
    by (eapply lookup_update, L2).
  rewrite (mbind_run _ _ _ _ _ (np_power_run _ two_thirds _ _ L3)).
  set (h4 := h3 ++ [Store.FloatArray (np_power (guarded_log a) two_thirds)]).
  assert (Hm4 : nth_error h4 m = Some (Store.FloatArray b)).
  { apply lookup_old. unfold h3. rewrite update_other.
    - apply lookup_old, lookup_old, Hm.
    - assert (m < length h)%nat by (apply nth_error_Some; congruence). lia. }
  assert (P4 : nth_error h4 (length h3)
               = Some (Store.FloatArray (np_power (guarded_log a) two_thirds)))
    by apply lookup_fresh.
  exists (length h4), (h4 ++ [Store.FloatArray c]). split.
  - apply (np_mul_run _ _ _ _ _ _ Hm4 P4). exact Hc.
  - apply lookup_fresh.
Qed.

(** ** Size sweeps *)

Lemma set_last_length y v : length (set_last y v) = length y.
Proof.
  destruct y as [| x y]; [reflexivity |]. unfold set_last.
  rewrite length_app, removelast_firstn_len, length_firstn. simpl. lia.
Qed.

Lemma set_last_nth_before y v i :
  (S i < length y)%nat -> nth_error (set_last y v) i = nth_error y i.
Proof.
  intros Hi. destruct y as [| x y]; [simpl in Hi; lia |]. unfold set_last.
  rewrite removelast_firstn_len.
  rewrite nth_error_app1 by (rewrite length_firstn; simpl in *; lia).
  rewrite nth_error_firstn.
  destruct (Nat.ltb_spec i (Nat.pred (length (x :: y)))); [reflexivity |].
  simpl in *. lia.
Qed.

Lemma set_last_nth_last y v i :
  S i = length y -> nth_error (set_last y v) i = Some v.
Proof.
  intros Hi. destruct y as [| x y]; [discriminate |]. unfold set_last.
  rewrite removelast_firstn_len.
  rewrite nth_error_app2 by (rewrite length_firstn; simpl in *; lia).
  rewrite length_firstn.
  replace (i - _)%nat with 0%nat by (simpl in *; lia). reflexivity.
Qed.

(** The sweep of exponents before its last point is overwritten. *)
Lemma linspace_body (start stop : R) (num : nat) :
  let div := (num - 1)%nat in
  let delta := stop - start in
  let y := map INR (seq 0 num) in
  map (fun v => v + start)
    (if (0 <? div)%nat then
       if Req_dec_T (delta / INR div) 0
       then map (fun v => v / INR div * delta) y
       else map (fun v => v * (delta / INR div)) y
     else map (fun v => v * delta) y)
  = map (fun i => start + INR i * ((stop - start) / INR (num - 1)))
      (seq 0 num).
Proof.
  intros div delta y. subst y.
  destruct (Nat.ltb_spec 0 div) as [Hd | Hd].
  - assert (0 < INR div) by (apply lt_0_INR, Hd).
    destruct (Req_dec_T (delta / INR div) 0); rewrite !map_map;
      apply map_ext; intros i; subst div delta; field; lra.
  - rewrite !map_map. apply map_ext_in. intros i Hi.
    apply in_seq in Hi. replace i with 0%nat by (subst div; lia).
    simpl. ring.
Qed.

Lemma np_linspace_length start stop num :
  length (np_linspace start stop num) = num.
Proof.
  unfold np_linspace. rewrite linspace_body.
  destruct (1 <? num)%nat; [rewrite set_last_length |];
    now rewrite length_map, length_seq.
Qed.

Lemma np_linspace_nth start stop num i :
  (i < num)%nat ->
  nth_error (np_linspace start stop num) i
  = Some (linspace_point start stop num i).
Proof.
  intros Hi. unfold np_linspace, linspace_point. rewrite linspace_body.
  assert (Hnth : nth_error
            (map (fun i => start + INR i * ((stop - start) / INR (num - 1)))
               (seq 0 num)) i
          = Some (start + INR i * ((stop - start) / INR (num - 1)))).
  { rewrite nth_error_map, nth_error_seq.
    destruct (Nat.ltb_spec i num); [reflexivity | lia]. }
  destruct (Nat.ltb_spec 1 num) as [H1 | H1]; cbn [andb].
  - destruct (Nat.eqb_spec (S i) num) as [E | E].
    + apply set_last_nth_last. now rewrite length_map, length_seq.
    + rewrite set_last_nth_before by (rewrite length_map, length_seq; lia).
      exact Hnth.
  - exact Hnth.
Qed.

(** With [start <= stop], the exponents do not decrease. *)
Lemma linspace_point_mono start stop num i j :
  start <= stop -> (i <= j)%nat -> (j < num)%nat ->
  linspace_point start stop num i <= linspace_point start stop num j.
Proof.
  intros Hs Hij Hj. unfold linspace_point.
  destruct (Nat.ltb_spec 1 num) as [H1 | H1]; cbn [andb].
  - assert (HD : 0 < INR (num - 1)) by (apply lt_0_INR; lia).
    set (D := INR (num - 1)) in *.
    set (q := (stop - start) / D).
    assert (Hq : q * D = stop - start) by (unfold q; field; lra).
    assert (Hq0 : 0 <= q).
    { unfold q. apply Rmult_le_pos; [lra |].
      left. now apply Rinv_0_lt_compat. }
    assert (Hi0 : 0 <= INR i) by apply pos_INR.
    assert (Hle : INR i <= INR j) by (apply le_INR, Hij).
    destruct (Nat.eqb_spec (S j) num) as [Ej | Ej];
      destruct (Nat.eqb_spec (S i) num) as [Ei | Ei]; try lia.
    + lra.
    + assert (INR i <= D) by (apply le_INR; lia). nra.
    + nra.
  - replace i with 0%nat by lia. replace j with 0%nat by lia. lra.
Qed.

Lemma np_logspace_nth start stop num i :
  (i < num)%nat ->
  nth_error (np_logspace start stop num) i
  = Some (Fin (Rpower 10 (linspace_point start stop num i))).
Proof.
  intros Hi. unfold np_logspace.
  now rewrite nth_error_map, np_linspace_nth.
Qed.

Lemma np_logspace_length start stop num :
  length (np_logspace start stop num) = num.
Proof. unfold np_logspace. now rewrite length_map, np_linspace_length. Qed.

Lemma fge_Fin a b : a <= b -> fge (Fin b) (Fin a) = true.
Proof.
  intros H. unfold fge. destruct (Rle_dec a b); [reflexivity | contradiction].
Qed.

(** C7: a sweep generated by [np.logspace] between a lower and an upper
    exponent has as many values as requested; they are strictly positive
    and never decrease. *)
Theorem np_logspace_sweep :
  forall (start stop : R) (num : nat),
    start <= stop ->
    length (np_logspace start stop num) = num /\
    Forall positive (np_logspace start stop num) /\
    nondecreasing (np_logspace start stop num).
Proof.
  intros start stop num Hs. split; [apply np_logspace_length |]. split.
  - unfold np_logspace. apply Forall_map, Forall_forall. intros y _.
    exists (Rpower 10 y). split; [reflexivity |].
    unfold Rpower. apply exp_pos.
  - intros i j x y Hij Hx Hy.
    assert (Hj : (j < num)%nat).
    { rewrite <- (np_logspace_length start stop num).
      apply nth_error_Some. congruence. }
    rewrite np_logspace_nth in Hx, Hy by lia.
    injection Hx as <-. injection Hy as <-.
    apply fge_Fin, Rle_Rpower; [lra |].
    now apply linspace_point_mono.
Qed.

Lemma np_logspace_sweep_witness :
  length n_values = 100%nat /\ Forall positive n_values /\
  nondecreasing n_values.
Proof. apply (np_logspace_sweep 3 9 100). lra. Defined.

(** ** Sample extraction *)

Lemma fmax_Fin x y : fmax (Fin x) (Fin y) = Fin (Rmax x y).
Proof.
  unfold fmax, fge, Rmax. cbn [isnan].
  destruct (Rle_dec y x), (Rle_dec x y); try reflexivity; f_equal; lra.
Qed.

Lemma fmin_Fin x y : fmin (Fin x) (Fin y) = Fin (Rmin x y).
Proof.
  unfold fmin, fge, Rmin. cbn [isnan].
  destruct (Rle_dec x y); reflexivity.
Qed.

Lemma fold_fmax_finite rest x :
  exists M, fold_left fmax (map Fin rest) (Fin x) = Fin M /\
            In M (x :: rest) /\ forall r, In r (x :: rest) -> r <= M.
Proof.
  revert x. induction rest as [| y rest IH]; intros x.
  - exists x. cbn. split; [reflexivity |]. split; [now left |].
    intros r [<- | []]. lra.
  - cbn [map fold_left]. rewrite fmax_Fin.
    destruct (IH (Rmax x y)) as (M & E & HIn & Hub). exists M.
    split; [exact E |]. split.
    + destruct HIn as [<- | HIn]; [| now right; right].
      unfold Rmax. destruct (Rle_dec x y); [right; now left | now left].
    + intros r [<- | [<- | Hr]].
      * apply Rle_trans with (Rmax x y); [apply Rmax_l |].
        apply Hub. now left.
      * apply Rle_trans with (Rmax x y); [apply Rmax_r |].
        apply Hub. now left.
      * apply Hub. now right.
Qed.

Lemma fold_fmin_finite rest x :
  exists m, fold_left fmin (map Fin rest) (Fin x) = Fin m /\
            In m (x :: rest) /\ forall r, In r (x :: rest) -> m <= r.
Proof.
  revert x. induction rest as [| y rest IH]; intros x.
  - exists x. cbn. split; [reflexivity |]. split; [now left |].
    intros r [<- | []]. lra.
  - cbn [map fold_left]. rewrite fmin_Fin.
    destruct (IH (Rmin x y)) as (m & E & HIn & Hlb). exists m.
    split; [exact E |]. split.
    + destruct HIn as [<- | HIn]; [| now right; right].
      unfold Rmin. destruct (Rle_dec x y); [now left | right; now left].
    + intros r [<- | [<- | Hr]].
      * apply Rle_trans with (Rmin x y); [| apply Rmin_l].
        apply Hlb. now left.
      * apply Rle_trans with (Rmin x y); [| apply Rmin_r].
        apply Hlb. now left.
      * apply Hlb. now right.
Qed.

Lemma np_max_finite ns :
  ns <> [] ->
  exists M, np_max (map Fin ns) = Ok (Fin M) /\
            In M ns /\ forall r, In r ns -> r <= M.
Proof.
  destruct ns as [| x rest]; [congruence |]. intros _.
  destruct (fold_fmax_finite rest x) as (M & E & H). exists M.
  split; [cbn; now rewrite E | exact H].
Qed.

Lemma np_min_finite ns :
  ns <> [] ->
  exists m, np_min (map Fin ns) = Ok (Fin m) /\
            In m ns /\ forall r, In r ns -> m <= r.
Proof.
  destruct ns as [| x rest]; [congruence |]. intros _.
  destruct (fold_fmin_finite rest x) as (m & E & H). exists m.
  split; [cbn; now rewrite E | exact H].
Qed.

(** The scan keeps the first index of the smallest value seen. *)
Lemma argmin_scan_first_minimum rest :
  forall pre mp mi,
    nth_error pre mi = Some mp ->
    (forall j x, nth_error pre j = Some x -> mp <= x) ->
    (forall j x, (j < mi)%nat -> nth_error pre j = Some x -> mp < x) ->
    first_minimum (pre ++ rest)
      (argmin_scan (map Fin rest) (length pre) (Fin mp) mi).
Proof.
  induction rest as [| x rest IH]; intros pre mp mi Hmi Hle Hlt.
  - cbn. rewrite app_nil_r. exists mp. auto.
  - cbn [map argmin_scan isnan fge].
    replace (pre ++ x :: rest) with ((pre ++ [x]) ++ rest)
      by (rewrite <- app_assoc; reflexivity).
    replace (S (length pre)) with (length (pre ++ [x]))
      by (rewrite length_app; simpl; lia).
    assert (Hmi' : (mi < length pre)%nat)
      by (apply nth_error_Some; congruence).
    destruct (Rle_dec mp x) as [Hx | Hx]; cbn [negb].
    + apply IH.
      * rewrite nth_error_app1 by exact Hmi'. exact Hmi.
      * intros j y Hj.
        destruct (Nat.lt_ge_cases j (length pre)) as [Hjl | Hjl].
        -- rewrite nth_error_app1 in Hj by exact Hjl. eapply Hle, Hj.
        -- rewrite nth_error_app2 in Hj by exact Hjl.
           destruct (j - length pre)%nat as [| k]; cbn in Hj.
           ++ injection Hj as <-. exact Hx.
           ++ destruct k; discriminate.
      * intros j y Hjm Hj.
        rewrite nth_error_app1 in Hj by lia. eapply Hlt; eassumption.
    + apply IH.
      * rewrite nth_error_app2, Nat.sub_diag by lia. reflexivity.
      * intros j y Hj.
        destruct (Nat.lt_ge_cases j (length pre)) as [Hjl | Hjl].
        -- rewrite nth_error_app1 in Hj by exact Hjl.
           apply Hle in Hj. lra.
        -- rewrite nth_error_app2 in Hj by exact Hjl.
           destruct (j - length pre)%nat as [| k]; cbn in Hj.
           ++ injection Hj as <-. lra.
           ++ destruct k; discriminate.
      * intros j y Hjm Hj.
        rewrite nth_error_app1 in Hj by exact Hjm.
        apply Hle in Hj. lra.
Qed.

Lemma np_argmin_first_minimum ds :
  ds <> [] ->
  exists idx, np_argmin (map Fin ds) = Ok idx /\ first_minimum ds idx.
Proof.
  destruct ds as [| d rest]; [congruence |]. intros _.
  exists (argmin_scan (map Fin rest) 1 (Fin d) 0). split; [reflexivity |].
  apply (argmin_scan_first_minimum rest [d] d 0%nat).
  - reflexivity.
  - intros [| [| j]] x; cbn; intros [= <-]. lra.
  - intros j x Hj. lia.
Qed.

Lemma nearest_index_first ns q :
  ns <> [] ->
  exists idx, nearest_index (map Fin ns) (Fin q) = Ok idx /\
              nearest_first ns q idx.
Proof.
  intros Hne. unfold nearest_index, nearest_first, np_abs, sub_scalar.
  rewrite !map_map. cbn [fsub fneg fadd fabs].
  rewrite <- (map_map (fun r => Rabs (r + - q)) Fin).
  apply np_argmin_first_minimum.
  destruct ns; [congruence | discriminate].
Qed.

Lemma fgt_Fin_true a b : b < a -> fgt (Fin a) (Fin b) = true.
Proof.
  intros H. unfold fgt. destruct (Rlt_dec b a); [reflexivity | contradiction].
Qed.

Lemma fgt_Fin_false a b : a <= b -> fgt (Fin a) (Fin b) = false.
Proof.
  intros H. unfold fgt. destruct (Rlt_dec b a); [lra | reflexivity].
Qed.

Lemma select_sample_above ns q v :
  sweep_max ns v -> v < q -> select_sample (map Fin ns) (Fin q) = Ok None.
Proof.
  intros [HIn Hub] Hq. unfold select_sample.
  destruct (np_max_finite ns) as (M & -> & HM & _);
    [intros ->; contradiction |].
  cbn [bind]. rewrite fgt_Fin_true; [reflexivity |].
  apply Rle_lt_trans with v; [now apply Hub | exact Hq].
Qed.

Lemma select_sample_below ns q v :
  sweep_min ns v -> q < v -> select_sample (map Fin ns) (Fin q) = Ok None.
Proof.
  intros [HIn Hlb] Hq. unfold select_sample.
  assert (Hne : ns <> []) by (intros ->; contradiction).
  destruct (np_max_finite ns Hne) as (M & -> & HM & _).
  destruct (np_min_finite ns Hne) as (m & Em & Hm & _).
  cbn [bind]. rewrite fgt_Fin_false.
  - rewrite Em. cbn [bind]. unfold flt. rewrite fgt_Fin_true; [reflexivity |].
    apply Rlt_le_trans with v; [exact Hq | now apply Hlb].
  - apply Rle_trans with v; [lra | now apply Hlb].
Qed.

Lemma select_sample_within ns q lo hi :
  sweep_min ns lo -> sweep_max ns hi -> lo <= q -> q <= hi ->
  exists idx, select_sample (map Fin ns) (Fin q) = Ok (Some idx) /\
              nearest_first ns q idx.
Proof.
  intros [Hlo _] [Hhi _] Hq1 Hq2. unfold select_sample.
  assert (Hne : ns <> []) by (intros ->; contradiction).
  destruct (np_max_finite ns Hne) as (M & -> & _ & HM).
  destruct (np_min_finite ns Hne) as (m & Em & _ & Hm).
  destruct (nearest_index_first ns q Hne) as (idx & Ei & Hidx).
  exists idx. split; [| exact Hidx].
  cbn [bind]. rewrite fgt_Fin_false
    by (apply Rle_trans with hi; [exact Hq2 | now apply HM]).
  rewrite Em. cbn [bind]. unfold flt. rewrite fgt_Fin_false
    by (apply Rle_trans with lo; [now apply Hm | exact Hq1]).
  rewrite Ei. reflexivity.
Qed.

(** The first and the last value of the two sweeps of the scripts. *)
Lemma Rpower_10_nat (k : nat) : Rpower 10 (INR k) = 10 ^ k.
Proof. apply Rpower_pow. lra. Qed.








(** ** Cost series of the scenarios *)

Lemma Forall_map_impl {A B : Type} (P : A -> Prop) (Q : B -> Prop)
  (f : A -> B) (l : list A) :
  (forall x, P x -> Q (f x)) -> Forall P l -> Forall Q (map f l).
Proof.
  intros Hf Hl. apply Forall_map. revert Hl. apply Forall_impl. exact Hf.
Qed.

Lemma cost_dijkstra_series n m :
  Forall at_least_one n -> aligned_nonneg n m ->
  exists c, cost_dijkstra n m = Ok c /\ aligned_nonneg n c.
Proof.
  intros Hn [Hlen Hm]. eexists.
  split; [apply cost_dijkstra_aligned; now symmetry |].
  assert (Hl : length (zip_with fmul n (np_log2 n)) = length n)
    by (apply zip_with_length; unfold np_log2; now rewrite length_map).
  split.
  - rewrite zip_with_length by congruence. exact Hlen.
  - apply zip_with_Forall with (P := finite_nonneg) (Q := finite_nonneg);
      [exact fadd_nonneg | exact Hm |].
    apply zip_with_Forall with (P := at_least_one) (Q := finite_nonneg);
      [| exact Hn |].
    + intros x y Hx Hy. apply fmul_nonneg; [| exact Hy].
      now apply positive_nonneg, at_least_one_positive.
    + unfold np_log2. revert Hn. apply Forall_map_impl, flog2_at_least_one.
Qed.

Lemma cost_duan_et_al_series n m :
  Forall at_least_one n -> aligned_nonneg n m ->
  exists c, cost_duan_et_al n m = Ok c /\ aligned_nonneg n c.
Proof.
  intros Hn [Hlen Hm]. eexists.
  split; [apply cost_duan_et_al_aligned; now symmetry |].
  assert (Hl : length (np_power (guarded_log n) two_thirds) = length n)
    by (unfold np_power; now rewrite length_map, guarded_log_length).
  split.
  - rewrite zip_with_length by congruence. exact Hlen.
  - apply zip_with_Forall with (P := finite_nonneg) (Q := finite_nonneg);
      [exact fmul_nonneg | exact Hm |].
    rewrite guarded_log_map. unfold np_power. rewrite map_map.
    revert Hn. apply Forall_map_impl. intros x (a & -> & Ha).
    apply fpow_two_thirds_nonneg, guard_flog2_nonneg. now right.
Qed.

Lemma cost_quantum_grover_series n m :
  Forall at_least_one n -> aligned_nonneg n m ->
  exists c, cost_quantum_grover n m = Ok c /\ aligned_nonneg n c.
Proof.
  intros Hn [Hlen Hm]. eexists.
  split; [apply cost_quantum_grover_aligned; now symmetry |].
  assert (Hl : length (np_sqrt n) = length n)
    by (unfold np_sqrt; now rewrite length_map).
  split.
  - rewrite zip_with_length by congruence. exact Hl.
  - apply zip_with_Forall with (P := finite_nonneg) (Q := finite_nonneg);
      [exact fmul_nonneg | | exact Hm].
    unfold np_sqrt. revert Hn. apply Forall_map_impl. intros x Hx.
    now apply fsqrt_finite_nonneg, positive_nonneg, at_least_one_positive.
Qed.

Lemma cost_quantum_wesolowski_series n m l :
  aligned_nonneg n m -> aligned_nonneg n l ->
  exists c, cost_quantum_wesolowski n m l = Ok c /\ aligned_nonneg n c.
Proof.
  intros [Hlen Hm] [Hlenl Hl]. eexists.
  split; [apply cost_quantum_wesolowski_aligned; congruence |].
  assert (Hs : length (np_sqrt m) = length m)
    by (unfold np_sqrt; now rewrite length_map).
  split.
  - rewrite zip_with_length by congruence. exact Hlenl.
  - apply zip_with_Forall with (P := finite_nonneg) (Q := finite_nonneg);
      [exact fmul_nonneg | exact Hl |].
    unfold np_sqrt. revert Hm. apply Forall_map_impl, fsqrt_finite_nonneg.
Qed.

Lemma base_costs_series n m :
  Forall at_least_one n -> aligned_nonneg n m ->
  exists costs, base_costs n m = Ok costs /\
                map fst costs = series_labels None /\
                Forall (series_ok n) costs.
Proof.
  intros Hn Hm.
  destruct (cost_dijkstra_series n m Hn Hm) as (d & Ed & Hd).
  destruct (cost_duan_et_al_series n m Hn Hm) as (u & Eu & Hu).
  destruct (cost_quantum_grover_series n m Hn Hm) as (g & Eg & Hg).
  eexists. unfold base_costs. rewrite Ed, Eu, Eg. cbn [bind].
  split; [reflexivity |]. split; [reflexivity |].
  repeat constructor; cbn [snd]; (apply Hd || apply Hu || apply Hg).
Qed.

(** The cost table of a scenario whose sizes are at least one and whose
    derived sequences are aligned, finite and non-negative. *)
Lemma scenario_costs_series n mf lf :
  Forall at_least_one n ->
  aligned_nonneg n (mf n) ->
  (forall f, lf = Some f -> aligned_nonneg n (f n)) ->
  exists costs, scenario_costs n mf lf = Ok costs /\
                map fst costs = series_labels lf /\
                Forall (series_ok n) costs.
Proof.
  intros Hn Hm Hl. unfold scenario_costs.
  destruct (base_costs_series n (mf n) Hn Hm) as (costs & -> & Hlab & Hok).
  cbn [bind]. destruct lf as [f |]; cbn [option_map].
  - destruct (cost_quantum_wesolowski_series n (mf n) (f n) Hm (Hl f eq_refl))
      as (w & -> & Hw).
    cbn [bind]. eexists. split; [reflexivity |]. split.
    + rewrite map_app, Hlab. reflexivity.
    + apply Forall_app. split; [exact Hok |]. repeat constructor; apply Hw.
  - exists costs. now rewrite Hlab.
Qed.

(** The labels of a cost table, whenever it is computed. *)
Lemma scenario_costs_labels n mf lf costs :
  scenario_costs n mf lf = Ok costs -> map fst costs = series_labels lf.
Proof.
  unfold scenario_costs, base_costs.
  destruct (cost_dijkstra n (mf n)) as [d |]; [| discriminate].
  destruct (cost_duan_et_al n (mf n)) as [u |]; [| discriminate].
  destruct (cost_quantum_grover n (mf n)) as [g |]; [| discriminate].
  cbn [bind]. destruct lf as [f |]; cbn [option_map].
  - destruct (cost_quantum_wesolowski n (mf n) (f n)) as [w |];
      [| discriminate].
    cbn [bind]. intros [= <-]. reflexivity.
  - intros [= <-]. reflexivity.
Qed.

(** *** The sweeps and derived sequences of the scripts *)

Lemma linspace_point_first start stop num :
  linspace_point start stop num 0 = start.
Proof.
  unfold linspace_point.
  replace ((1 <? num) && (1 =? num))%nat with false.
  - simpl. ring.
  - destruct (Nat.ltb_spec 1 num), (Nat.eqb_spec 1 num);
      try reflexivity; lia.
Qed.

Lemma np_logspace_at_least_one start stop num :
  0 <= start -> start <= stop ->
  Forall at_least_one (np_logspace start stop num).
Proof.
  intros H0 Hs. apply Forall_forall. intros x Hx.
  apply In_nth_error in Hx as [i Hi].
  assert (Hlt : (i < num)%nat).
  { rewrite <- (np_logspace_length start stop num).
    apply nth_error_Some. congruence. }
  rewrite np_logspace_nth in Hi by exact Hlt. injection Hi as <-.
  eexists. split; [reflexivity |].
  rewrite <- (Rpower_O 10) by lra. apply Rle_Rpower; [lra |].
  pose proof (linspace_point_mono start stop num 0 i Hs
                ltac:(lia) Hlt) as Hm.
  rewrite linspace_point_first in Hm. lra.
Qed.

(** [lambda n: 10 * n] *)
Lemma sparse_edges_aligned n :
  Forall at_least_one n -> aligned_nonneg n (scalar_mul (Fin 10) n).
Proof.
  intros Hn. split; [unfold scalar_mul; apply length_map |].
  unfold scalar_mul. revert Hn. apply Forall_map_impl.
  intros x (a & -> & Ha). exists (10 * a). split; [reflexivity | lra].
Qed.

Lemma fdiv_nonneg_by_positive x c :
  finite_nonneg x -> 0 < c -> finite_nonneg (fdiv x (Fin c)).
Proof.
  intros (a & -> & Ha) Hc. unfold fdiv.
  destruct (Req_dec_T c 0); [lra |].
  exists (a / c). split; [reflexivity |].
  apply Rmult_le_pos; [exact Ha |]. left. now apply Rinv_0_lt_compat.
Qed.

(** [lambda n: n**2 / 100] *)
Lemma dense_edges_aligned n :
  Forall at_least_one n ->
  aligned_nonneg n (div_scalar (np_square n) (Fin 100)).
Proof.
  intros Hn. split.
  - unfold div_scalar, np_square. now rewrite !length_map.
  - unfold div_scalar, np_square. rewrite map_map.
    revert Hn. apply Forall_map_impl. intros x Hx.
    apply fdiv_nonneg_by_positive; [| lra].
    apply at_least_one_positive, positive_nonneg in Hx.
    now apply fmul_nonneg.
Qed.

(** [lambda n: np.log2(n)**2] *)
Lemma short_path_aligned n :
  Forall at_least_one n -> aligned_nonneg n (np_square (np_log2 n)).
Proof.
  intros Hn. split.
  - unfold np_square, np_log2. now rewrite !length_map.
  - unfold np_square, np_log2. rewrite map_map.
    revert Hn. apply Forall_map_impl. intros x Hx.
    apply flog2_at_least_one in Hx. now apply fmul_nonneg.
Qed.

(** [lambda n: n / 10] *)
Lemma long_path_aligned n :
  Forall at_least_one n -> aligned_nonneg n (div_scalar n (Fin 10)).
Proof.
  intros Hn. split; [unfold div_scalar; apply length_map |].
  unfold div_scalar. revert Hn. apply Forall_map_impl. intros x Hx.
  apply fdiv_nonneg_by_positive; [| lra].
  now apply positive_nonneg, at_least_one_positive.
Qed.

Lemma n_vals_at_least_one : Forall at_least_one n_vals.
Proof. apply np_logspace_at_least_one; lra. Qed.

Lemma n_vals_dense_at_least_one : Forall at_least_one n_vals_dense.
Proof. apply np_logspace_at_least_one; lra. Qed.

(** ** The representative sizes *)



(** ** The scenarios run to completion *)

Lemma np_logspace_sizes start stop num :
  np_logspace start stop num = map Fin (logspace_sizes start stop num).
Proof. unfold np_logspace, logspace_sizes. now rewrite map_map. Qed.

Lemma logspace_sizes_length start stop num :
  length (logspace_sizes start stop num) = num.
Proof. unfold logspace_sizes. now rewrite length_map, np_linspace_length. Qed.

Lemma logspace_sizes_nth start stop num i :
  (i < num)%nat ->
  nth_error (logspace_sizes start stop num) i
  = Some (Rpower 10 (linspace_point start stop num i)).
Proof.
  intros Hi. unfold logspace_sizes.
  now rewrite nth_error_map, np_linspace_nth.
Qed.

(** The smallest size of a sweep of several points is its first, ten to
    the lower exponent, and the largest its last, ten to the upper one. *)
Lemma logspace_sizes_min start stop k :
  start <= stop ->
  sweep_min (logspace_sizes start stop (S (S k))) (Rpower 10 start).
Proof.
  intros Hs. split.
  - apply nth_error_In with (n := 0%nat).
    rewrite logspace_sizes_nth by lia. now rewrite linspace_point_first.
  - intros r Hr. apply In_nth_error in Hr as [i Hi].
    assert (Hlt : (i < S (S k))%nat).
    { rewrite <- (logspace_sizes_length start stop (S (S k))).
      apply nth_error_Some. congruence. }
    rewrite logspace_sizes_nth in Hi by exact Hlt. injection Hi as <-.
    apply Rle_Rpower; [lra |].
    rewrite <- (linspace_point_first start stop (S (S k))) at 1.
    apply linspace_point_mono; [exact Hs | lia | exact Hlt].
Qed.

Lemma linspace_point_last start stop k :
  linspace_point start stop (S (S k)) (S k) = stop.
Proof.
  unfold linspace_point.
  replace ((1 <? S (S k)) && (S (S k) =? S (S k)))%nat with true
    by (rewrite Nat.eqb_refl; reflexivity).
  reflexivity.
Qed.

Lemma logspace_sizes_max start stop k :
  start <= stop ->
  sweep_max (logspace_sizes start stop (S (S k))) (Rpower 10 stop).
Proof.
  intros Hs. split.
  - apply nth_error_In with (n := S k).
    rewrite logspace_sizes_nth by lia. now rewrite linspace_point_last.
  - intros r Hr. apply In_nth_error in Hr as [i Hi].
    assert (Hlt : (i < S (S k))%nat).
    { rewrite <- (logspace_sizes_length start stop (S (S k))).
      apply nth_error_Some. congruence. }
    rewrite logspace_sizes_nth in Hi by exact Hlt. injection Hi as <-.
    apply Rle_Rpower; [lra |].
    rewrite <- (linspace_point_last start stop k) at 2.
    apply linspace_point_mono; [exact Hs | lia | lia].
Qed.

Lemma Rpower_10_3 : Rpower 10 3 = 1e3.
Proof.
  replace 3 with (INR 3) by (simpl; lra). rewrite Rpower_10_nat. lra.
Qed.

Lemma Rpower_10_5 : Rpower 10 5 = 1e5.
Proof.
  replace 5 with (INR 5) by (simpl; lra). rewrite Rpower_10_nat. lra.
Qed.

Lemma Rpower_10_9 : Rpower 10 9 = 1e9.
Proof.
  replace 9 with (INR 9) by (simpl; lra). rewrite Rpower_10_nat. lra.
Qed.

(** On the sweep from [10^3] to [10^5] the sample loop of
    [run_and_plot_scenario] reports the point [10^4] and skips [10^6] and
    [10^8]; on the sweep from [10^3] to [10^9] it reports all three. *)
Lemma sample_points_selected :
  (exists i, map (select_sample n_vals_dense) sample_points
             = [Ok (Some i); Ok None; Ok None]) /\
  (exists i j k, map (select_sample n_vals) sample_points
                 = [Ok (Some i); Ok (Some j); Ok (Some k)]).
Proof.
  unfold n_vals_dense, n_vals, sample_points. rewrite !np_logspace_sizes.
  pose proof (logspace_sizes_min 3 5 98 ltac:(lra)) as Hmin5.
  pose proof (logspace_sizes_max 3 5 98 ltac:(lra)) as Hmax5.
  pose proof (logspace_sizes_min 3 9 98 ltac:(lra)) as Hmin9.
  pose proof (logspace_sizes_max 3 9 98 ltac:(lra)) as Hmax9.
  rewrite Rpower_10_3 in Hmin5, Hmin9.
  rewrite Rpower_10_5 in Hmax5. rewrite Rpower_10_9 in Hmax9.
  split.
  - destruct (select_sample_within _ 1e4 _ _ Hmin5 Hmax5) as (i & Ei & _);
      [lra | lra |].
    exists i. cbn [map]. rewrite Ei.
    rewrite (select_sample_above _ 1e6 _ Hmax5) by lra.
    rewrite (select_sample_above _ 1e8 _ Hmax5) by lra.
    reflexivity.
  - destruct (select_sample_within _ 1e4 _ _ Hmin9 Hmax9) as (i & Ei & _);
      [lra | lra |].
    destruct (select_sample_within _ 1e6 _ _ Hmin9 Hmax9) as (j & Ej & _);
      [lra | lra |].
    destruct (select_sample_within _ 1e8 _ _ Hmin9 Hmax9) as (k & Ek & _);
      [lra | lra |].
    exists i, j, k. cbn [map]. now rewrite Ei, Ej, Ek.
Qed.

Lemma nearest_first_bound ns q idx :
  nearest_first ns q idx -> (idx < length ns)%nat.
Proof.
  intros (v & Hv & _).
  rewrite <- (length_map (fun r => Rabs (r - q)) ns).
  apply nth_error_Some. congruence.
Qed.

(** On a non-empty sweep of finite sizes an iteration of the sample loop
    either skips the point or picks an index of the sweep. *)
Lemma select_sample_total ns q :
  ns <> [] ->
  select_sample (map Fin ns) (Fin q) = Ok None \/
  exists idx, select_sample (map Fin ns) (Fin q) = Ok (Some idx) /\
              (idx < length ns)%nat.
Proof.
  intros Hne.
  destruct (np_max_finite ns Hne) as (M & _ & HM).
  destruct (np_min_finite ns Hne) as (m & _ & Hm).
  destruct (Rlt_dec M q) as [Ha | Ha].
  { left. now apply (select_sample_above ns q M). }
  destruct (Rlt_dec q m) as [Hb | Hb].
  { left. now apply (select_sample_below ns q m). }
  right.
  destruct (select_sample_within ns q m M) as (idx & E & Hn);
    [assumption | assumption | lra | lra |].
  exists idx. split; [exact E |]. eapply nearest_first_bound, Hn.
Qed.

Lemma getitem_Ok (a : ndarray) idx :
  (idx < length a)%nat -> exists x, getitem a idx = Ok x.
Proof.
  intros H. unfold getitem.
  destruct (nth_error a idx) as [x |] eqn:E; [now exists x |].
  apply nth_error_None in E. lia.
Qed.

Lemma sample_row_Ok sweep costs idx :
  (idx < length sweep)%nat ->
  Forall (fun kv : string * ndarray => length (snd kv) = length sweep) costs ->
  exists r, sample_row sweep costs idx = Ok r.
Proof.
  intros Hidx Hc. unfold sample_row.
  destruct (getitem_Ok sweep idx Hidx) as (x & ->). cbn [bind].
  assert (H : exists cs, mapM (fun kv : string * ndarray =>
                                 getitem (snd kv) idx) costs = Ok cs).
  { induction Hc as [| kv costs Hkv _ IH]; [now exists [] |].
    destruct IH as (cs & Ecs).
    destruct (getitem_Ok (snd kv) idx) as (y & Ey); [lia |].
    exists (y :: cs). cbn [mapM]. now rewrite Ey, Ecs. }
  destruct H as (cs & ->). now eexists.
Qed.

Lemma sample_loop_Ok ns costs points :
  ns <> [] ->
  Forall (fun kv : string * ndarray => length (snd kv) = length (map Fin ns))
    costs ->
  Forall finite points ->
  exists rows, sample_loop (map Fin ns) costs points = Ok rows /\
               (length rows <= length points)%nat.
Proof.
  intros Hne Hc Hp. induction Hp as [| p points (q & ->) _ IH].
  - exists []. split; [reflexivity | apply Nat.le_refl].
  - destruct IH as (rows & Erows & Hlen). cbn [sample_loop].
    destruct (select_sample_total ns q Hne) as [-> | (idx & -> & Hidx)];
      cbn [bind].
    + exists rows. split; [exact Erows | simpl; lia].
    + destruct (sample_row_Ok (map Fin ns) costs idx) as (r & ->);
        [now rewrite length_map | exact Hc |].
      cbn [bind]. rewrite Erows. cbn [bind].
      exists (r :: rows). split; [reflexivity | simpl; lia].
Qed.

Lemma sample_loop_basic_Ok ns costs points :
  ns <> [] ->
  Forall (fun kv : string * ndarray => length (snd kv) = length (map Fin ns))
    costs ->
  Forall finite points ->
  exists rows, sample_loop_basic (map Fin ns) costs points = Ok rows /\
               length rows = length points.
Proof.
  intros Hne Hc Hp. unfold sample_loop_basic.
  induction Hp as [| p points (q & ->) _ IH].
  - now exists [].
  - destruct IH as (rows & Erows & Hlen). cbn [mapM].
    destruct (nearest_index_first ns q Hne) as (idx & -> & Hidx).
    cbn [bind].
    destruct (sample_row_Ok (map Fin ns) costs idx) as (r & ->);
      [rewrite length_map; eapply nearest_first_bound, Hidx | exact Hc |].
    cbn [bind]. rewrite Erows. cbn [bind].
    exists (r :: rows). split; [reflexivity | simpl; lia].
Qed.

Lemma sample_points_finite : Forall finite sample_points.
Proof. repeat constructor; eexists; reflexivity. Qed.

Lemma logspace_sizes_nonempty start stop k :
  logspace_sizes start stop (S k) <> [].
Proof.
  intros E. apply (f_equal (@length R)) in E.
  rewrite logspace_sizes_length in E. discriminate.
Qed.

Lemma series_ok_length sweep costs :
  Forall (series_ok sweep) costs ->
  Forall (fun kv : string * ndarray => length (snd kv) = length sweep) costs.
Proof. apply Forall_impl. now intros kv [H _]. Qed.

(** A call of [run_and_plot_scenario] on a logarithmic sweep from a
    non-negative exponent, with derived sequences that are aligned, finite
    and non-negative, returns: the cost table is as described and the
    sample loop completes. *)
Lemma run_and_plot_scenario_Ok start stop k mf lf :
  0 <= start -> start <= stop ->
  let n := np_logspace start stop (S k) in
  aligned_nonneg n (mf n) ->
  (forall f, lf = Some f -> aligned_nonneg n (f n)) ->
  exists costs rows,
    run_and_plot_scenario n mf lf = Ok (costs, rows) /\
    scenario_costs n mf lf = Ok costs /\
    Forall (series_ok n) costs /\
    (length rows <= 3)%nat.
Proof.
  intros H0 Hs n Hm Hl. unfold run_and_plot_scenario.
  assert (Hn : Forall at_least_one n)
    by now apply np_logspace_at_least_one.
  destruct (scenario_costs_series n mf lf Hn Hm Hl) as (costs & E & _ & Hok).
  rewrite E. cbn [bind].
  pose proof (series_ok_length _ _ Hok) as Hlen.
  subst n. rewrite np_logspace_sizes in Hlen |- *.
  destruct (sample_loop_Ok _ costs sample_points
              (logspace_sizes_nonempty start stop k) Hlen
              sample_points_finite) as (rows & -> & Hrows).
  cbn [bind]. exists costs, rows.
  rewrite <- np_logspace_sizes. now repeat split.
Qed.

(** C6: every cost table has the three labels that are always computed
    and the fourth exactly when a path-length function is supplied; each of
    the four scenario runs of [run_comprehensive_analysis.py] returns, and
    there, as in the two scenarios of [run_analysis.py], every series has
    the length of the size sweep and only finite non-negative values. *)
Theorem scenario_series_aligned_finite_nonneg :
  (forall n mf lf costs,
      scenario_costs n mf lf = Ok costs -> map fst costs = series_labels lf) /\
  Forall (fun sc =>
            exists costs rows,
              run sc = Ok (costs, rows) /\
              map fst costs = series_labels (l_func sc) /\
              Forall (series_ok (sc_n_values sc)) costs) scenarios /\
  (exists costs,
      costs_sparse = Ok costs /\ map fst costs = series_labels None /\
      Forall (series_ok n_values) costs) /\
  (exists costs,
      costs_dense = Ok costs /\ map fst costs = series_labels None /\
      Forall (series_ok n_values_dense) costs).
Proof.
  split; [exact scenario_costs_labels |]. split; [| split].
  - pose proof n_vals_at_least_one as H9.
    pose proof n_vals_dense_at_least_one as H5.
    repeat constructor; unfold run;
      cbn [sc_n_values m_func l_func sparse_short_path
             sparse_long_path dense_short_path dense_long_path].
    + destruct (run_and_plot_scenario_Ok 3 9 99
                  (fun n => scalar_mul (Fin 10) n)
                  (Some (fun n => np_square (np_log2 n))))
        as (costs & rows & E & Ec & Hok & _); [lra | lra | | |].
      * now apply sparse_edges_aligned.
      * intros f [= <-]. now apply short_path_aligned.
      * exists costs, rows. split; [exact E |].
        split; [exact (scenario_costs_labels _ _ _ _ Ec) | exact Hok].
    + destruct (run_and_plot_scenario_Ok 3 9 99
                  (fun n => scalar_mul (Fin 10) n)
                  (Some (fun n => div_scalar n (Fin 10))))
        as (costs & rows & E & Ec & Hok & _); [lra | lra | | |].
      * now apply sparse_edges_aligned.
      * intros f [= <-]. now apply long_path_aligned.
      * exists costs, rows. split; [exact E |].
        split; [exact (scenario_costs_labels _ _ _ _ Ec) | exact Hok].
    + destruct (run_and_plot_scenario_Ok 3 5 99
                  (fun n => div_scalar (np_square n) (Fin 100))
                  (Some (fun n => np_square (np_log2 n))))
        as (costs & rows & E & Ec & Hok & _); [lra | lra | | |].
      * now apply dense_edges_aligned.
      * intros f [= <-]. now apply short_path_aligned.
      * exists costs, rows. split; [exact E |].
        split; [exact (scenario_costs_labels _ _ _ _ Ec) | exact Hok].
    + destruct (run_and_plot_scenario_Ok 3 5 99
                  (fun n => div_scalar (np_square n) (Fin 100))
                  (Some (fun n => div_scalar n (Fin 10))))
        as (costs & rows & E & Ec & Hok & _); [lra | lra | | |].
      * now apply dense_edges_aligned.
      * intros f [= <-]. now apply long_path_aligned.
      * exists costs, rows. split; [exact E |].
        split; [exact (scenario_costs_labels _ _ _ _ Ec) | exact Hok].
  - apply base_costs_series; [exact n_vals_at_least_one |].
    apply sparse_edges_aligned, n_vals_at_least_one.
  - apply base_costs_series; [exact n_vals_dense_at_least_one |].
    apply dense_edges_aligned, n_vals_dense_at_least_one.
Qed.

Lemma scenario_series_aligned_finite_nonneg_witness :
  exists costs,
    scenario_costs [Fin 4] (fun n => scalar_mul (Fin 10) n)
      (Some (fun n => div_scalar n (Fin 10))) = Ok costs /\
    map fst costs
    = series_labels (Some (fun n => div_scalar n (Fin 10))).
Proof.
  assert (E : exists costs,
             scenario_costs [Fin 4] (fun n => scalar_mul (Fin 10) n)
               (Some (fun n => div_scalar n (Fin 10))) = Ok costs)
    by (eexists; reflexivity).
  destruct E as (costs & E). exists costs. split; [exact E |].
  destruct scenario_series_aligned_finite_nonneg as [H _].
  apply (H _ _ _ _ E).
Defined.

(** Both sample loops of [run_analysis.py] complete, with a row for each
    of their three points. *)
Lemma basic_samples_Ok :
  (exists rows, samples_sparse = Ok rows /\ length rows = 3%nat) /\
  (exists rows, samples_dense = Ok rows /\ length rows = 3%nat).
Proof.
  split.
  - unfold samples_sparse, costs_sparse.
    destruct (base_costs_series n_values m_sparse n_vals_at_least_one)
      as (costs & -> & _ & Hok);
      [apply sparse_edges_aligned, n_vals_at_least_one |].
    cbn [bind]. apply series_ok_length in Hok.
    unfold n_values in Hok |- *. rewrite np_logspace_sizes in Hok |- *.
    apply (sample_loop_basic_Ok _ costs points_sparse
             (logspace_sizes_nonempty 3 9 99) Hok).
    repeat constructor; eexists; reflexivity.
  - unfold samples_dense, costs_dense.
    destruct (base_costs_series n_values_dense m_dense
                n_vals_dense_at_least_one)
      as (costs & -> & _ & Hok);
      [apply dense_edges_aligned, n_vals_dense_at_least_one |].
    cbn [bind]. apply series_ok_length in Hok.
    unfold n_values_dense in Hok |- *. rewrite np_logspace_sizes in Hok |- *.
    apply (sample_loop_basic_Ok _ costs points_dense
             (logspace_sizes_nonempty 3 5 99) Hok).
    repeat constructor; eexists; reflexivity.
Qed.

(** *** The other object-level cost functions *)

Lemma cost_dijkstra_refines h n m a b c :
  nth_error h n = Some (Store.FloatArray a) ->
  nth_error h m = Some (Store.FloatArray b) ->
  cost_dijkstra a b = Ok c ->
  exists r h',
    Store.cost_dijkstra n m h = Ok (r, h') /\
    nth_error h' r = Some (Store.FloatArray c).
Proof.
  intros Hn Hm Hc. unfold Store.cost_dijkstra. unfold cost_dijkstra in Hc.
  destruct (np_mul a (np_log2 a)) as [t |] eqn:Et; [| discriminate].
  cbn [bind] in Hc.
  rewrite (mbind_run _ _ _ _ _ (np_log2_run _ _ _ Hn)).
  set (h1 := h ++ [Store.FloatArray (np_log2 a)]).
  assert (L1 : nth_error h1 (length h) = Some (Store.FloatArray (np_log2 a)))
    by apply lookup_fresh.
  assert (N1 : nth_error h1 n = Some (Store.FloatArray a))
    by apply lookup_old, Hn.
  rewrite (mbind_run _ _ _ _ _ (np_mul_run _ _ _ _ _ _ N1 L1 Et)).
  set (h2 := h1 ++ [Store.FloatArray t]).
  assert (T2 : nth_error h2 (length h1) = Some (Store.FloatArray t))
    by apply lookup_fresh.
  assert (M2 : nth_error h2 m = Some (Store.FloatArray b))
    by apply lookup_old, lookup_old, Hm.
  exists (length h2), (h2 ++ [Store.FloatArray c]). split.
  - apply (np_add_run _ _ _ _ _ _ M2 T2 Hc).
  - apply lookup_fresh.
Qed.

Lemma cost_quantum_grover_refines h n m a b c :
  nth_error h n = Some (Store.FloatArray a) ->
  nth_error h m = Some (Store.FloatArray b) ->
  cost_quantum_grover a b = Ok c ->
  exists r h',
    Store.cost_quantum_grover n m h = Ok (r, h') /\
    nth_error h' r = Some (Store.FloatArray c).
Proof.
  intros Hn Hm Hc. unfold Store.cost_quantum_grover.
  rewrite (mbind_run _ _ _ _ _ (np_sqrt_run _ _ _ Hn)).
  set (h1 := h ++ [Store.FloatArray (np_sqrt a)]).
  assert (S1 : nth_error h1 (length h) = Some (Store.FloatArray (np_sqrt a)))
    by apply lookup_fresh.
  assert (M1 : nth_error h1 m = Some (Store.FloatArray b))
    by apply lookup_old, Hm.
  exists (length h1), (h1 ++ [Store.FloatArray c]). split.
  - apply (np_mul_run _ _ _ _ _ _ S1 M1 Hc).
  - apply lookup_fresh.
Qed.

Lemma cost_quantum_wesolowski_refines h n m l a b d c :
  nth_error h n = Some (Store.FloatArray a) ->
  nth_error h m = Some (Store.FloatArray b) ->
  nth_error h l = Some (Store.FloatArray d) ->
  cost_quantum_wesolowski a b d = Ok c ->
  exists r h',
    Store.cost_quantum_wesolowski n m l h = Ok (r, h') /\
    nth_error h' r = Some (Store.FloatArray c).
Proof.
  intros Hn Hm Hl Hc. unfold Store.cost_quantum_wesolowski.
  rewrite (mbind_run _ _ _ _ _ (np_sqrt_run _ _ _ Hm)).
  set (h1 := h ++ [Store.FloatArray (np_sqrt b)]).
  assert (S1 : nth_error h1 (length h) = Some (Store.FloatArray (np_sqrt b)))
    by apply lookup_fresh.
  assert (L1 : nth_error h1 l = Some (Store.FloatArray d))
    by apply lookup_old, Hl.
  exists (length h1), (h1 ++ [Store.FloatArray c]). split.
  - apply (np_mul_run _ _ _ _ _ _ L1 S1 Hc).
  - apply lookup_fresh.
Qed.

(** * Further properties of the cost functions *)

(** X1: on arrays [n] and [m] of equal length with finite sizes that are
    not negative, [cost_quantum_grover] returns an array of that length
    whose [i]-th element is [sqrt(n[i]) * m[i]]; at [n = 100], [m = 50] it
    returns [500]. *)
Theorem cost_quantum_grover_elementwise :
  forall n m : ndarray,
    length n = length m ->
    (forall x, In x n -> exists a, x = Fin a /\ 0 <= a) ->
    (exists c,
        cost_quantum_grover n m = Ok c /\
        length c = length n /\
        (forall i a mi,
            nth_error n i = Some (Fin a) ->
            nth_error m i = Some mi ->
            nth_error c i = Some (fmul (Fin (sqrt a)) mi))) /\
    cost_quantum_grover [Fin 100] [Fin 50] = Ok [Fin 500].
Proof.
  intros n m Hlen Hn. split.
  - exists (zip_with fmul (np_sqrt n) m).
    split; [apply cost_quantum_grover_aligned, Hlen |]. split.
    + rewrite zip_with_length; unfold np_sqrt; now rewrite length_map.
    + intros i a mi Hi Hm.
      destruct (Hn (Fin a) (nth_error_In _ _ Hi)) as (a' & [= <-] & Ha).
      apply zip_with_nth_error; [| exact Hm].
      unfold np_sqrt. rewrite nth_error_map, Hi. cbn [option_map].
      now rewrite fsqrt_nonneg.
  - rewrite cost_quantum_grover_aligned by reflexivity.
    unfold zip_with, np_sqrt. cbn [map combine fst snd].
    rewrite fsqrt_nonneg by lra.
    replace 100 with (10 * 10) by ring.
    rewrite sqrt_square by lra. cbn [fmul].
    do 3 f_equal. ring.
Qed.

Lemma cost_quantum_grover_elementwise_witness :
  cost_quantum_grover [Fin 100] [Fin 50] = Ok [Fin 500].
Proof.
  apply (cost_quantum_grover_elementwise [Fin 100] [Fin 50]).
  - reflexivity.
  - intros x [<- | []]. exists 100. split; [reflexivity | lra].
Defined.

(** The value of [m * log2(n)**(2/3)] with the guard, for one size and one
    edge count. *)
Lemma duan_at_index n m c i x mi :
  length n = length m ->
  cost_duan_et_al n m = Ok c ->
  nth_error n i = Some x -> nth_error m i = Some mi ->
  nth_error c i = Some (fmul mi (fpow (guard (flog2 x)) two_thirds)).
Proof.
  intros Hlen Hc Hx Hm.
  rewrite cost_duan_et_al_aligned in Hc by exact Hlen. injection Hc as <-.
  apply zip_with_nth_error; [exact Hm |].
  rewrite guarded_log_map. unfold np_power.
  rewrite map_map, nth_error_map, Hx. reflexivity.
Qed.

Lemma fmul_NaN_r x : fmul x NaN = NaN.
Proof. now destruct x. Qed.

(** X2: what [cost_duan_et_al] computes at each index of aligned arrays:
    for a size above one, [m * log2(n)**(2/3)]; for a size of one or zero,
    [m * 0]; for a negative size or a positive size below one, NaN. *)
Theorem cost_duan_et_al_cases :
  forall (n m c : ndarray) (i : nat) (a : R) (mi : f64),
    length n = length m ->
    cost_duan_et_al n m = Ok c ->
    nth_error n i = Some (Fin a) ->
    nth_error m i = Some mi ->
    (1 < a ->
     nth_error c i = Some (fmul mi (Fin (Rpower (Rlog2 a) two_thirds)))) /\
    (a = 1 \/ a = 0 -> nth_error c i = Some (fmul mi (Fin 0))) /\
    (a < 0 \/ 0 < a < 1 -> nth_error c i = Some NaN).
Proof.
  intros n m c i a mi Hlen Hc Hx Hm.
  rewrite (duan_at_index n m c i (Fin a) mi Hlen Hc Hx Hm).
  split; [| split].
  - intros Ha. rewrite flog2_pos by lra. cbn [guard isneginf].
    rewrite fpow_two_thirds_pos; [reflexivity |].
    unfold Rlog2. assert (0 < ln a) by (rewrite <- ln_1; apply ln_increasing; lra).
    apply Rmult_lt_0_compat; [assumption |].
    apply Rinv_0_lt_compat, ln_2_pos.
  - intros [-> | ->].
    + rewrite flog2_pos by lra. rewrite Rlog2_1. cbn [guard isneginf].
      now rewrite fpow_two_thirds_zero.
    + rewrite flog2_zero. cbn [guard isneginf].
      now rewrite fpow_two_thirds_zero.
  - intros [Ha | Ha].
    + unfold flog2. destruct (Rlt_dec 0 a); [lra |].
      destruct (Rlt_dec a 0); [| lra]. cbn [guard isneginf].
      unfold fpow. destruct (Req_dec_T two_thirds 0); [| apply f_equal, fmul_NaN_r].
      unfold two_thirds in *. lra.
    + rewrite flog2_pos by lra. cbn [guard isneginf].
      rewrite fpow_two_thirds_neg by (apply Rlog2_neg; lra).
      apply f_equal, fmul_NaN_r.
Qed.

Lemma cost_duan_et_al_cases_witness :
  exists c, cost_duan_et_al [Fin 8; Fin 0] [Fin 80; Fin 7] = Ok c /\
            nth_error c 1 = Some (fmul (Fin 7) (Fin 0)).
Proof.
  assert (E : exists c,
             cost_duan_et_al [Fin 8; Fin 0] [Fin 80; Fin 7] = Ok c)
    by (eexists; reflexivity).
  destruct E as (c & E). exists c. split; [exact E |].
  apply (cost_duan_et_al_cases [Fin 8; Fin 0] [Fin 80; Fin 7] c 1 0 (Fin 7)
           eq_refl E eq_refl eq_refl).
  now right.
Defined.

Lemma flog2_NInf_iff x : flog2 x = NInf <-> x = Fin 0.
Proof.
  split.
  - destruct x as [a | | |]; cbn; try discriminate.
    destruct (Rlt_dec 0 a); [discriminate |].
    destruct (Rlt_dec a 0); [discriminate |].
    intros _. f_equal. lra.
  - intros ->. apply flog2_zero.
Qed.

(** X3: the guard of [cost_duan_et_al] changes the logarithm only where a
    size is zero: on an array without a zero, whatever else it holds, the
    guarded logarithm is [np.log2(n)] itself. *)
Theorem guard_only_at_zero :
  forall n : ndarray,
    (forall x, In x n -> x <> Fin 0) -> guarded_log n = np_log2 n.
Proof.
  intros n Hn. rewrite guarded_log_map. unfold np_log2.
  apply map_ext_in. intros x Hx. unfold guard.
  destruct (flog2 x) eqn:E; try reflexivity.
  apply flog2_NInf_iff in E. now apply Hn in Hx.
Qed.

Lemma guard_only_at_zero_witness : guarded_log n_values = np_log2 n_values.
Proof.
  apply (guard_only_at_zero n_values). intros x Hx E.
  pose proof n_vals_at_least_one as Hp.
  rewrite Forall_forall in Hp. destruct (Hp x Hx) as (r & Er & Hr).
  rewrite E in Er. injection Er as <-. lra.
Defined.

(** ** Sizes outside the domain *)

Lemma dijkstra_at_index n m c i x mi :
  length n = length m ->
  cost_dijkstra n m = Ok c ->
  nth_error n i = Some x -> nth_error m i = Some mi ->
  nth_error c i = Some (fadd mi (fmul x (flog2 x))).
Proof.
  intros Hlen Hc Hx Hm.
  rewrite cost_dijkstra_aligned in Hc by exact Hlen. injection Hc as <-.
  apply zip_with_nth_error; [exact Hm |].
  apply zip_with_nth_error; [exact Hx |].
  unfold np_log2. now rewrite nth_error_map, Hx.
Qed.

Lemma grover_at_index n m c i x mi :
  length n = length m ->
  cost_quantum_grover n m = Ok c ->
  nth_error n i = Some x -> nth_error m i = Some mi ->
  nth_error c i = Some (fmul (fsqrt x) mi).
Proof.
  intros Hlen Hc Hx Hm.
  rewrite cost_quantum_grover_aligned in Hc by exact Hlen. injection Hc as <-.
  apply zip_with_nth_error; [| exact Hm].
  unfold np_sqrt. now rewrite nth_error_map, Hx.
Qed.

Lemma fadd_NaN_r x : fadd x NaN = NaN.
Proof. now destruct x. Qed.

(** X4: a negative size is not rejected: on aligned arrays the three
    functions of the size return, and at the index of a negative size the
    cost is NaN in each of them, whatever the edge count. *)
Theorem negative_size_gives_nan :
  forall (n m : ndarray) (i : nat) (a : R) (mi : f64),
    length n = length m ->
    nth_error n i = Some (Fin a) ->
    nth_error m i = Some mi ->
    a < 0 ->
    (exists c, cost_dijkstra n m = Ok c /\ nth_error c i = Some NaN) /\
    (exists c, cost_duan_et_al n m = Ok c /\ nth_error c i = Some NaN) /\
    (exists c, cost_quantum_grover n m = Ok c /\ nth_error c i = Some NaN).
Proof.
  intros n m i a mi Hlen Hx Hm Ha.
  assert (Hlog : flog2 (Fin a) = NaN).
  { unfold flog2. destruct (Rlt_dec 0 a); [lra |].
    destruct (Rlt_dec a 0); [reflexivity | lra]. }
  split; [| split]; eexists.
  - split; [apply cost_dijkstra_aligned, Hlen |].
    rewrite (dijkstra_at_index n m _ i (Fin a) mi Hlen
               (cost_dijkstra_aligned n m Hlen) Hx Hm).
    rewrite Hlog. cbn [fmul]. now rewrite fadd_NaN_r.
  - split; [apply cost_duan_et_al_aligned, Hlen |].
    rewrite (duan_at_index n m _ i (Fin a) mi Hlen
               (cost_duan_et_al_aligned n m Hlen) Hx Hm).
    rewrite Hlog. cbn [guard isneginf]. unfold fpow.
    destruct (Req_dec_T two_thirds 0) as [E | _];
      [unfold two_thirds in E; lra |].
    now rewrite fmul_NaN_r.
  - split; [apply cost_quantum_grover_aligned, Hlen |].
    rewrite (grover_at_index n m _ i (Fin a) mi Hlen
               (cost_quantum_grover_aligned n m Hlen) Hx Hm).
    unfold fsqrt. destruct (Rlt_dec a 0); [| contradiction].
    now destruct mi.
Qed.

Lemma negative_size_gives_nan_witness :
  exists c, cost_quantum_grover [Fin 4; Fin (-1)] [Fin 40; Fin 10] = Ok c /\
            nth_error c 1 = Some NaN.
Proof.
  apply (negative_size_gives_nan [Fin 4; Fin (-1)] [Fin 40; Fin 10]
           1 (-1) (Fin 10)); try reflexivity. lra.
Defined.

(** X5: only [cost_duan_et_al] is guarded at a zero size.  There, with a
    finite edge count, it gives zero and so does [cost_quantum_grover],
    while [cost_dijkstra] multiplies zero by minus infinity and gives NaN
    whatever the edge count. *)
Theorem zero_size_costs :
  forall (n m : ndarray) (i : nat) (b : R),
    length n = length m ->
    nth_error n i = Some (Fin 0) ->
    nth_error m i = Some (Fin b) ->
    (exists c, cost_dijkstra n m = Ok c /\ nth_error c i = Some NaN) /\
    (exists c, cost_duan_et_al n m = Ok c /\ nth_error c i = Some (Fin 0)) /\
    (exists c, cost_quantum_grover n m = Ok c /\
               nth_error c i = Some (Fin 0)).
Proof.
  intros n m i b Hlen Hx Hm. split; [| split]; eexists.
  - split; [apply cost_dijkstra_aligned, Hlen |].
    rewrite (dijkstra_at_index n m _ i (Fin 0) (Fin b) Hlen
               (cost_dijkstra_aligned n m Hlen) Hx Hm).
    rewrite flog2_zero. cbn [fmul]. unfold inf_times.
    destruct (Rlt_dec 0 0); [lra |]. reflexivity.
  - split; [apply cost_duan_et_al_aligned, Hlen |].
    rewrite (duan_at_index n m _ i (Fin 0) (Fin b) Hlen
               (cost_duan_et_al_aligned n m Hlen) Hx Hm).
    rewrite flog2_zero. cbn [guard isneginf].
    rewrite fpow_two_thirds_zero. cbn [fmul]. do 2 f_equal. ring.
  - split; [apply cost_quantum_grover_aligned, Hlen |].
    rewrite (grover_at_index n m _ i (Fin 0) (Fin b) Hlen
               (cost_quantum_grover_aligned n m Hlen) Hx Hm).
    rewrite fsqrt_nonneg by lra. rewrite sqrt_0. cbn [fmul].
    do 2 f_equal. ring.
Qed.

Lemma zero_size_costs_witness :
  exists c, cost_dijkstra [Fin 0; Fin 2] [Fin 0; Fin 20] = Ok c /\
            nth_error c 0 = Some NaN.
Proof.
  apply (zero_size_costs [Fin 0; Fin 2] [Fin 0; Fin 20] 0 0); reflexivity.
Defined.

(** ** Arrays of different lengths *)

Lemma broadcast_mismatch {A : Type} (f : A -> A -> A) (xs ys : list A) :
  length xs <> length ys -> length xs <> 1%nat -> length ys <> 1%nat ->
  broadcast f xs ys = Raise ValueError.
Proof.
  intros Hne Hx Hy. unfold broadcast.
  destruct (Nat.eqb_spec (length xs) (length ys)); [contradiction |].
  destruct xs as [| x [| x' xs]]; destruct ys as [| y [| y' ys]];
    cbn in *; try reflexivity; contradiction.
Qed.

Lemma broadcast_scalar_right {A : Type} (f : A -> A -> A) (xs : list A) y :
  broadcast f xs [y] = Ok (map (fun x => f x y) xs).
Proof.
  unfold broadcast. destruct xs as [| x [| x' xs]]; reflexivity.
Qed.

Lemma broadcast_scalar_left {A : Type} (f : A -> A -> A) x (ys : list A) :
  broadcast f [x] ys = Ok (map (f x) ys).
Proof.
  unfold broadcast. destruct ys as [| y [| y' ys]]; reflexivity.
Qed.

(** X6: on a size array and an edge array of different lengths, neither of
    length one, every cost function of the two raises [ValueError]; so does
    [cost_quantum_wesolowski] on such a path-length and edge array. *)
Theorem mismatched_lengths_raise :
  forall n m l : ndarray,
    length n <> length m ->
    length n <> 1%nat ->
    length m <> 1%nat ->
    cost_dijkstra n m = Raise ValueError /\
    cost_duan_et_al n m = Raise ValueError /\
    cost_quantum_grover n m = Raise ValueError /\
    cost_quantum_wesolowski l m n = Raise ValueError.
Proof.
  intros n m l Hne Hn Hm. repeat split.
  - unfold cost_dijkstra, np_mul, np_add.
    rewrite broadcast_aligned by (unfold np_log2; now rewrite length_map).
    cbn [bind]. apply broadcast_mismatch; [| exact Hm |];
      rewrite zip_with_length
        by (unfold np_log2; now rewrite length_map); congruence.
  - unfold cost_duan_et_al, np_mul. apply broadcast_mismatch;
      [| exact Hm |]; unfold np_power;
      rewrite length_map, guarded_log_length; congruence.
  - unfold cost_quantum_grover, np_mul. apply broadcast_mismatch;
      [| | exact Hm]; unfold np_sqrt; rewrite length_map; congruence.
  - unfold cost_quantum_wesolowski, np_mul. apply broadcast_mismatch;
      [| exact Hn |]; unfold np_sqrt; rewrite length_map; congruence.
Qed.

Lemma mismatched_lengths_raise_witness :
  cost_dijkstra [Fin 1; Fin 2; Fin 4] [Fin 10; Fin 20] = Raise ValueError.
Proof.
  apply (mismatched_lengths_raise [Fin 1; Fin 2; Fin 4] [Fin 10; Fin 20] []);
    cbn; lia.
Defined.

(** X7: an edge array of one element is broadcast over the sizes: each
    function applies that one edge count at every size and returns a
    series of the length of the size array. *)
Theorem single_edge_count_broadcasts :
  forall (n : ndarray) (m0 : f64),
    cost_dijkstra n [m0]
    = Ok (map (fun x => fadd m0 (fmul x (flog2 x))) n) /\
    cost_duan_et_al n [m0]
    = Ok (map (fun x => fmul m0 (fpow (guard (flog2 x)) two_thirds)) n) /\
    cost_quantum_grover n [m0]
    = Ok (map (fun x => fmul (fsqrt x) m0) n).
Proof.
  intros n m0. repeat split.
  - unfold cost_dijkstra, np_mul, np_add.
    rewrite broadcast_aligned by (unfold np_log2; now rewrite length_map).
    cbn [bind]. rewrite broadcast_scalar_left. f_equal.
    unfold zip_with, np_log2. rewrite map_map.
    induction n as [| x n IH]; [reflexivity |].
    cbn [map combine fst snd]. now rewrite <- IH.
  - unfold cost_duan_et_al, np_mul. rewrite broadcast_scalar_left.
    rewrite guarded_log_map. unfold np_power. now rewrite !map_map.
  - unfold cost_quantum_grover, np_mul. rewrite broadcast_scalar_right.
    unfold np_sqrt. now rewrite map_map.
Qed.

(** * Further properties of the sample extraction *)

Lemma broadcast_raises_ValueError {A : Type} (f : A -> A -> A) xs ys e :
  broadcast f xs ys = Raise e -> e = ValueError.
Proof.
  unfold broadcast. destruct (length xs =? length ys)%nat; [discriminate |].
  destruct xs as [| x [| x' xs]]; destruct ys as [| y [| y' ys]];
    try discriminate; now intros [= <-].
Qed.

Lemma scenario_costs_raises_ValueError n mf lf e :
  scenario_costs n mf lf = Raise e -> e = ValueError.
Proof.
  unfold scenario_costs, base_costs, cost_dijkstra, cost_duan_et_al,
    cost_quantum_grover, cost_quantum_wesolowski, np_mul, np_add.
  repeat match goal with
         | |- context [bind (broadcast ?f ?a ?b) _] =>
             let E := fresh "E" in
             destruct (broadcast f a b) eqn:E; cbn [bind];
             [| apply broadcast_raises_ValueError in E; now intros [= <-]]
         end.
  destruct lf as [f |]; cbn [option_map]; [| discriminate].
  destruct (broadcast fmul (f n) (np_sqrt (mf n))) eqn:Ew; cbn [bind];
    [discriminate |].
  apply broadcast_raises_ValueError in Ew. now intros [= <-].
Qed.

(** X8: on an empty size sweep a call of [run_and_plot_scenario] raises
    [ValueError], whatever the edge and path-length functions: from a cost
    function, or else from [n_values.max()] at the first sample point. *)
Theorem empty_sweep_raises :
  forall (mf : ndarray -> ndarray) (lf : option (ndarray -> ndarray)),
    run_and_plot_scenario [] mf lf = Raise ValueError.
Proof.
  intros mf lf. unfold run_and_plot_scenario.
  destruct (scenario_costs [] mf lf) as [costs | e] eqn:E; cbn [bind].
  - reflexivity.
  - now rewrite (scenario_costs_raises_ValueError _ _ _ _ E).
Qed.

(** The maximum and the minimum of an array that holds a NaN are NaN. *)
Lemma fold_fmax_NaN rest : fold_left fmax rest NaN = NaN.
Proof. induction rest as [| y rest IH]; [reflexivity | exact IH]. Qed.

Lemma fold_fmin_NaN rest : fold_left fmin rest NaN = NaN.
Proof. induction rest as [| y rest IH]; [reflexivity | exact IH]. Qed.

Lemma fold_fmax_with_NaN pre post x :
  fold_left fmax (pre ++ NaN :: post) x = NaN.
Proof.
  revert x. induction pre as [| y pre IH]; intros x; cbn [app fold_left].
  - replace (fmax x NaN) with NaN by (now destruct x). apply fold_fmax_NaN.
  - apply IH.
Qed.

Lemma fold_fmin_with_NaN pre post x :
  fold_left fmin (pre ++ NaN :: post) x = NaN.
Proof.
  revert x. induction pre as [| y pre IH]; intros x; cbn [app fold_left].
  - replace (fmin x NaN) with NaN by (now destruct x). apply fold_fmin_NaN.
  - apply IH.
Qed.

Lemma np_max_with_NaN pre post : np_max (pre ++ NaN :: post) = Ok NaN.
Proof.
  destruct pre as [| x pre]; cbn [app np_max]; [now rewrite fold_fmax_NaN |].
  now rewrite fold_fmax_with_NaN.
Qed.

Lemma np_min_with_NaN pre post : np_min (pre ++ NaN :: post) = Ok NaN.
Proof.
  destruct pre as [| x pre]; cbn [app np_min]; [now rewrite fold_fmin_NaN |].
  now rewrite fold_fmin_with_NaN.
Qed.

(** The scan stops at the first NaN and returns its index. *)
Lemma argmin_scan_first_NaN pre post :
  Forall (fun x => isnan x = false) pre ->
  forall i mp mi,
    argmin_scan (pre ++ NaN :: post) i mp mi = (i + length pre)%nat.
Proof.
  induction 1 as [| x pre Hx _ IH]; intros i mp mi.
  - cbn [app argmin_scan]. replace (fge NaN mp) with false by (now destruct mp).
    cbn. lia.
  - cbn [app argmin_scan length]. rewrite Hx.
    destruct (negb (fge x mp)); rewrite IH; lia.
Qed.

Lemma np_argmin_first_NaN pre post :
  Forall (fun x => isnan x = false) pre ->
  np_argmin (pre ++ NaN :: post) = Ok (length pre).
Proof.
  intros H. destruct H as [| x pre Hx Hpre]; [reflexivity |].
  cbn [app np_argmin length]. rewrite Hx.
  now rewrite argmin_scan_first_NaN.
Qed.

(** X9: when the size sweep holds a NaN, the sample loop of
    [run_and_plot_scenario] skips no finite point, since both comparisons
    with the NaN maximum and minimum are false, and the index it picks for
    every finite point is that of the first NaN. *)
Theorem nan_in_sweep_is_selected :
  forall (pre post : ndarray) (q : R),
    Forall (fun x => isnan x = false) pre ->
    select_sample (pre ++ NaN :: post) (Fin q) = Ok (Some (length pre)).
Proof.
  intros pre post q Hpre. unfold select_sample.
  rewrite np_max_with_NaN. cbn [bind fgt].
  rewrite np_min_with_NaN. cbn [bind flt fgt].
  unfold nearest_index, np_abs, sub_scalar. rewrite !map_app. cbn [map].
  replace (fabs (fsub NaN (Fin q))) with NaN by reflexivity.
  rewrite <- (length_map (fun x => fsub x (Fin q)) pre).
  rewrite <- (length_map fabs (map (fun x => fsub x (Fin q)) pre)).
  rewrite np_argmin_first_NaN; [reflexivity |].
  rewrite map_map. apply Forall_map. revert Hpre. apply Forall_impl.
  intros x Hx. destruct x; [reflexivity | reflexivity | reflexivity |].
  discriminate Hx.
Qed.

Lemma nan_in_sweep_is_selected_witness :
  select_sample ([Fin 1e3; Fin 1e4] ++ NaN :: [Fin 1e5]) (Fin 1e8)
  = Ok (Some 2%nat).
Proof.
  apply (nan_in_sweep_is_selected [Fin 1e3; Fin 1e4] [Fin 1e5] 1e8).
  repeat constructor.
Defined.

Lemma sweep_bounds_exist ns :
  ns <> [] -> exists lo hi, sweep_min ns lo /\ sweep_max ns hi.
Proof.
  intros Hne.
  destruct (np_max_finite ns Hne) as (M & _ & HM).
  destruct (np_min_finite ns Hne) as (m & _ & Hm).
  exists m, M. now split.
Qed.

(** X10: a sample point that is itself a size of the sweep is never
    skipped, and the size reported for it is the point itself. *)
Theorem sample_at_sweep_member :
  forall (ns : list R) (q : R),
    In q ns ->
    exists idx,
      select_sample (map Fin ns) (Fin q) = Ok (Some idx) /\
      nth_error ns idx = Some q.
Proof.
  intros ns q Hq.
  assert (Hne : ns <> []) by (intros ->; contradiction).
  destruct (sweep_bounds_exist ns Hne) as (lo & hi & Hlo & Hhi).
  destruct (select_sample_within ns q lo hi Hlo Hhi) as (idx & E & Hidx).
  { now apply (proj2 Hlo). }
  { now apply (proj2 Hhi). }
  exists idx. split; [exact E |].
  destruct Hidx as (v & Hv & Hle & _).
  rewrite nth_error_map in Hv.
  destruct (nth_error ns idx) as [r |] eqn:Er; [| discriminate].
  cbn [option_map] in Hv. injection Hv as <-.
  apply In_nth_error in Hq as [j Hj].
  assert (H0 : Rabs (r - q) <= Rabs (q - q)).
  { apply (Hle j). now rewrite nth_error_map, Hj. }
  replace (q - q) with 0 in H0 by ring. rewrite Rabs_R0 in H0.
  assert (Hr : r - q = 0).
  { destruct (Req_dec (r - q) 0) as [Hz | Hz]; [exact Hz |].
    apply Rabs_pos_lt in Hz. lra. }
  f_equal. lra.
Qed.

Lemma sample_at_sweep_member_witness :
  exists idx,
    select_sample (map Fin [1e3; 1e4; 1e5]) (Fin 1e4) = Ok (Some idx) /\
    nth_error [1e3; 1e4; 1e5] idx = Some 1e4.
Proof.
  apply (sample_at_sweep_member [1e3; 1e4; 1e5] 1e4). right. now left.
Defined.




(** * Further properties of the size sweeps *)

(** With [start < stop], the exponents increase strictly. *)
Lemma linspace_point_strict start stop num i j :
  start < stop -> (i < j)%nat -> (j < num)%nat ->
  linspace_point start stop num i < linspace_point start stop num j.
Proof.
  intros Hs Hij Hj. unfold linspace_point.
  destruct (Nat.ltb_spec 1 num) as [H1 | H1]; cbn [andb]; [| lia].
  assert (HD : 0 < INR (num - 1)) by (apply lt_0_INR; lia).
  set (D := INR (num - 1)) in *.
  set (q := (stop - start) / D).
  assert (Hq : q * D = stop - start) by (unfold q; field; lra).
  assert (Hq0 : 0 < q).
  { unfold q. apply Rmult_lt_0_compat; [lra |].
    now apply Rinv_0_lt_compat. }
  assert (Hi0 : 0 <= INR i) by apply pos_INR.
  assert (Hlt : INR i < INR j) by (apply lt_INR, Hij).
  destruct (Nat.eqb_spec (S j) num) as [Ej | Ej];
    destruct (Nat.eqb_spec (S i) num) as [Ei | Ei]; try lia.
  - assert (INR i < D) by (apply lt_INR; lia). nra.
  - nra.
Qed.

(** X12: a sweep generated by [np.logspace] between a lower and a larger
    upper exponent has strictly increasing sizes, hence no size twice. *)
Theorem np_logspace_strictly_increasing :
  forall (start stop : R) (num i j : nat) (x y : f64),
    start < stop ->
    (i < j)%nat ->
    nth_error (np_logspace start stop num) i = Some x ->
    nth_error (np_logspace start stop num) j = Some y ->
    fgt y x = true /\ x <> y.
Proof.
  intros start stop num i j x y Hs Hij Hx Hy.
  assert (Hj : (j < num)%nat).
  { rewrite <- (np_logspace_length start stop num).
    apply nth_error_Some. congruence. }
  rewrite np_logspace_nth in Hx, Hy by lia.
  injection Hx as <-. injection Hy as <-.
  assert (H : Rpower 10 (linspace_point start stop num i)
              < Rpower 10 (linspace_point start stop num j)).
  { apply Rpower_lt; [lra |]. now apply linspace_point_strict. }
  split; [now apply fgt_Fin_true |].
  intros [= E]. lra.
Qed.

Lemma np_logspace_strictly_increasing_witness :
  exists x y,
    nth_error n_values 0 = Some x /\ nth_error n_values 99 = Some y /\
    fgt y x = true /\ x <> y.
Proof.
  exists (Fin (Rpower 10 (linspace_point 3 9 100 0))),
         (Fin (Rpower 10 (linspace_point 3 9 100 99))).
  assert (H0 : nth_error n_values 0
               = Some (Fin (Rpower 10 (linspace_point 3 9 100 0))))
    by (apply np_logspace_nth; lia).
  assert (H99 : nth_error n_values 99
                = Some (Fin (Rpower 10 (linspace_point 3 9 100 99))))
    by (apply np_logspace_nth; lia).
  split; [exact H0 |]. split; [exact H99 |].
  apply (np_logspace_strictly_increasing 3 9 100 0 99);
    [lra | lia | exact H0 | exact H99].
Defined.

(** X13: a sweep of at least two points generated between a lower and an
    upper exponent starts at ten to the lower exponent, its smallest size,
    and ends at ten to the upper exponent, its largest size: both bounds
    are included. *)
Theorem np_logspace_bounds :
  forall (start stop : R) (k : nat),
    start <= stop ->
    nth_error (np_logspace start stop (S (S k))) 0
    = Some (Fin (Rpower 10 start)) /\
    nth_error (np_logspace start stop (S (S k))) (S k)
    = Some (Fin (Rpower 10 stop)) /\
    np_logspace start stop (S (S k))
    = map Fin (logspace_sizes start stop (S (S k))) /\
    sweep_min (logspace_sizes start stop (S (S k))) (Rpower 10 start) /\
    sweep_max (logspace_sizes start stop (S (S k))) (Rpower 10 stop).
Proof.
  intros start stop k Hs. repeat split.
  - rewrite np_logspace_nth by lia. now rewrite linspace_point_first.
  - rewrite np_logspace_nth by lia. now rewrite linspace_point_last.
  - apply np_logspace_sizes.
  - now apply logspace_sizes_min.
  - apply (logspace_sizes_min start stop k Hs).
  - now apply logspace_sizes_max.
  - apply (logspace_sizes_max start stop k Hs).
Qed.

Lemma np_logspace_bounds_witness :
  nth_error n_values 0 = Some (Fin (Rpower 10 3)) /\
  nth_error n_values 99 = Some (Fin (Rpower 10 9)).
Proof.
  destruct (np_logspace_bounds 3 9 98 ltac:(lra)) as (H0 & H99 & _).
  split; [exact H0 | exact H99].
Defined.

(** * Further properties of the cost functions on array objects *)

Lemma update_length h x o : length (Store.update h x o) = length h.
Proof.
  revert x. induction h as [| y h IH]; intros [| x]; cbn; auto.
Qed.

Lemma mbind_raise {A B : Type} (c : Store.M A) (k : A -> Store.M B) h e :
  c h = Raise e -> Store.mbind c k h = Raise e.
Proof. intros H. unfold Store.mbind. now rewrite H. Qed.

Lemma np_mul_run_result x y h a b :
  nth_error h x = Some (Store.FloatArray a) ->
  nth_error h y = Some (Store.FloatArray b) ->
  Store.np_mul x y h =
    match np_mul a b with
    | Ok c => Ok (length h, h ++ [Store.FloatArray c])
    | Raise e => Raise e
    end.
Proof.
  intros Hx Hy. unfold Store.np_mul.
  rewrite (mbind_run _ _ _ _ _ (read_float_run _ _ _ Hx)).
  rewrite (mbind_run _ _ _ _ _ (read_float_run _ _ _ Hy)).
  unfold Store.mbind, Store.lift. now destruct (np_mul a b).
Qed.

Lemma np_add_run_result x y h a b :
  nth_error h x = Some (Store.FloatArray a) ->
  nth_error h y = Some (Store.FloatArray b) ->
  Store.np_add x y h =
    match np_add a b with
    | Ok c => Ok (length h, h ++ [Store.FloatArray c])
    | Raise e => Raise e
    end.
Proof.
  intros Hx Hy. unfold Store.np_add.
  rewrite (mbind_run _ _ _ _ _ (read_float_run _ _ _ Hx)).
  rewrite (mbind_run _ _ _ _ _ (read_float_run _ _ _ Hy)).
  unfold Store.mbind, Store.lift. now destruct (np_add a b).
Qed.

(** X14: on array objects holding [a] and [b], which may be one and the
    same object, the object-level [cost_duan_et_al] raises exactly when the
    value-level function does, with the same exception; otherwise it
    returns the address of a newly allocated object that holds the
    value-level result. *)
Theorem cost_duan_et_al_on_objects :
  forall (h : Store.heap) (n m : Store.ref) (a b : ndarray),
    nth_error h n = Some (Store.FloatArray a) ->
    nth_error h m = Some (Store.FloatArray b) ->
    match cost_duan_et_al a b with
    | Ok c =>
        exists r h',
          Store.cost_duan_et_al n m h = Ok (r, h') /\
          nth_error h' r = Some (Store.FloatArray c) /\
          (length h <= r)%nat
    | Raise e => Store.cost_duan_et_al n m h = Raise e
    end.
Proof.
  intros h n m a b Hn Hm. unfold Store.cost_duan_et_al.
  rewrite (mbind_run _ _ _ _ _ (np_log2_run _ _ _ Hn)).
  set (h1 := h ++ [Store.FloatArray (np_log2 a)]).
  assert (L1 : nth_error h1 (length h) = Some (Store.FloatArray (np_log2 a)))
    by apply lookup_fresh.
  rewrite (mbind_run _ _ _ _ _ (np_isneginf_run _ _ _ L1)).
  set (h2 := h1 ++ [Store.BoolArray (np_isneginf (np_log2 a))]).
  assert (L2 : nth_error h2 (length h) = Some (Store.FloatArray (np_log2 a)))
    by (apply lookup_old, L1).
  assert (M2 : nth_error h2 (length h1)
               = Some (Store.BoolArray (np_isneginf (np_log2 a))))
    by apply lookup_fresh.
  rewrite (mbind_run _ _ _ _ _ (setitem_mask_run _ _ (Fin 0) _ _ _ L2 M2)).
  fold (guarded_log a).
  set (h3 := Store.update h2 (length h) (Store.FloatArray (guarded_log a))).
  assert (L3 : nth_error h3 (length h) = Some (Store.FloatArray (guarded_log a)))
    by (eapply lookup_update, L2).
  rewrite (mbind_run _ _ _ _ _ (np_power_run _ two_thirds _ _ L3)).
  set (h4 := h3 ++ [Store.FloatArray (np_power (guarded_log a) two_thirds)]).
  assert (Hm4 : nth_error h4 m = Some (Store.FloatArray b)).
  { apply lookup_old. unfold h3. rewrite update_other.
    - apply lookup_old, lookup_old, Hm.
    - assert (m < length h)%nat by (apply nth_error_Some; congruence). lia. }
  assert (P4 : nth_error h4 (length h3)
               = Some (Store.FloatArray (np_power (guarded_log a) two_thirds)))
    by apply lookup_fresh.
  rewrite (np_mul_run_result _ _ _ _ _ Hm4 P4).
  unfold cost_duan_et_al.
  destruct (np_mul b (np_power (guarded_log a) two_thirds)) as [c | e];
    [| reflexivity].
  exists (length h4), (h4 ++ [Store.FloatArray c]).
  split; [reflexivity |]. split; [apply lookup_fresh |].
  unfold h4, h3, h2, h1.
  rewrite length_app, update_length, !length_app. lia.
Qed.

Lemma cost_duan_et_al_on_objects_witness :
  exists r h',
    Store.cost_duan_et_al 0%nat 0%nat [Store.FloatArray [Fin 0; Fin 4]]
    = Ok (r, h') /\
    nth_error h' 0 = Some (Store.FloatArray [Fin 0; Fin 4]) /\
    (1 <= r)%nat.
Proof.
  pose proof (cost_duan_et_al_on_objects
                [Store.FloatArray [Fin 0; Fin 4]] 0%nat 0%nat
                [Fin 0; Fin 4] [Fin 0; Fin 4] eq_refl eq_refl) as H.
  rewrite cost_duan_et_al_aligned in H by reflexivity.
  destruct H as (r & h' & E & _ & Hr).
  exists r, h'. split; [exact E |]. split; [| exact Hr].
  assert (E' : exists r0 h0,
             Store.cost_duan_et_al 0%nat 0%nat
               [Store.FloatArray [Fin 0; Fin 4]] = Ok (r0, h0) /\
             nth_error h0 0 = Some (Store.FloatArray [Fin 0; Fin 4]))
    by (do 2 eexists; split; reflexivity).
  destruct E' as (r0 & h0 & E0 & H0). rewrite E in E0.
  injection E0 as <- <-. exact H0.
Defined.

(** X15: on array objects holding [a], [b] and [d], the object-level
    [cost_dijkstra], [cost_quantum_grover] and [cost_quantum_wesolowski]
    raise exactly when the value-level functions do, and otherwise return
    the address of a newly allocated object that holds the value-level
    result. *)
Theorem unguarded_costs_on_objects :
  forall (h : Store.heap) (n m l : Store.ref) (a b d : ndarray),
    nth_error h n = Some (Store.FloatArray a) ->
    nth_error h m = Some (Store.FloatArray b) ->
    nth_error h l = Some (Store.FloatArray d) ->
    match cost_dijkstra a b with
    | Ok c =>
        exists r h',
          Store.cost_dijkstra n m h = Ok (r, h') /\
          nth_error h' r = Some (Store.FloatArray c) /\
          (length h <= r)%nat
    | Raise e => Store.cost_dijkstra n m h = Raise e
    end /\
    match cost_quantum_grover a b with
    | Ok c =>
        exists r h',
          Store.cost_quantum_grover n m h = Ok (r, h') /\
          nth_error h' r = Some (Store.FloatArray c) /\
          (length h <= r)%nat
    | Raise e => Store.cost_quantum_grover n m h = Raise e
    end /\
    match cost_quantum_wesolowski a b d with
    | Ok c =>
        exists r h',
          Store.cost_quantum_wesolowski n m l h = Ok (r, h') /\
          nth_error h' r = Some (Store.FloatArray c) /\
          (length h <= r)%nat
    | Raise e => Store.cost_quantum_wesolowski n m l h = Raise e
    end.
Proof.
  intros h n m l a b d Hn Hm Hl. split; [| split].
  - unfold Store.cost_dijkstra, cost_dijkstra.
    rewrite (mbind_run _ _ _ _ _ (np_log2_run _ _ _ Hn)).
    set (h1 := h ++ [Store.FloatArray (np_log2 a)]).
    assert (L1 : nth_error h1 (length h)
                 = Some (Store.FloatArray (np_log2 a)))
      by apply lookup_fresh.
    assert (N1 : nth_error h1 n = Some (Store.FloatArray a))
      by apply lookup_old, Hn.
    pose proof (np_mul_run_result _ _ _ _ _ N1 L1) as Hmul.
    destruct (np_mul a (np_log2 a)) as [t | e]; cbn [bind];
      [| now apply mbind_raise].
    rewrite (mbind_run _ _ _ _ _ Hmul).
    set (h2 := h1 ++ [Store.FloatArray t]).
    assert (T2 : nth_error h2 (length h1) = Some (Store.FloatArray t))
      by apply lookup_fresh.
    assert (M2 : nth_error h2 m = Some (Store.FloatArray b))
      by apply lookup_old, lookup_old, Hm.
    rewrite (np_add_run_result _ _ _ _ _ M2 T2).
    destruct (np_add b t) as [c | e]; [| reflexivity].
    exists (length h2), (h2 ++ [Store.FloatArray c]).
    split; [reflexivity |]. split; [apply lookup_fresh |].
    unfold h2, h1. rewrite !length_app. lia.
  - unfold Store.cost_quantum_grover, cost_quantum_grover.
    rewrite (mbind_run _ _ _ _ _ (np_sqrt_run _ _ _ Hn)).
    set (h1 := h ++ [Store.FloatArray (np_sqrt a)]).
    assert (S1 : nth_error h1 (length h)
                 = Some (Store.FloatArray (np_sqrt a)))
      by apply lookup_fresh.
    assert (M1 : nth_error h1 m = Some (Store.FloatArray b))
      by apply lookup_old, Hm.
    rewrite (np_mul_run_result _ _ _ _ _ S1 M1).
    destruct (np_mul (np_sqrt a) b) as [c | e]; [| reflexivity].
    exists (length h1), (h1 ++ [Store.FloatArray c]).
    split; [reflexivity |]. split; [apply lookup_fresh |].
    unfold h1. rewrite length_app. lia.
  - unfold Store.cost_quantum_wesolowski, cost_quantum_wesolowski.
    rewrite (mbind_run _ _ _ _ _ (np_sqrt_run _ _ _ Hm)).
    set (h1 := h ++ [Store.FloatArray (np_sqrt b)]).
    assert (S1 : nth_error h1 (length h)
                 = Some (Store.FloatArray (np_sqrt b)))
      by apply lookup_fresh.
    assert (L1 : nth_error h1 l = Some (Store.FloatArray d))
      by apply lookup_old, Hl.
    rewrite (np_mul_run_result _ _ _ _ _ L1 S1).
    destruct (np_mul d (np_sqrt b)) as [c | e]; [| reflexivity].
    exists (length h1), (h1 ++ [Store.FloatArray c]).
    split; [reflexivity |]. split; [apply lookup_fresh |].
    unfold h1. rewrite length_app. lia.
Qed.

Lemma unguarded_costs_on_objects_witness :
  exists r h',
    Store.cost_dijkstra 0%nat 1%nat
      [Store.FloatArray [Fin 4]; Store.FloatArray [Fin 40]] = Ok (r, h') /\
    (2 <= r)%nat.
Proof.
  destruct (unguarded_costs_on_objects
              [Store.FloatArray [Fin 4]; Store.FloatArray [Fin 40]]
              0%nat 1%nat 0%nat [Fin 4] [Fin 40] [Fin 4]
              eq_refl eq_refl eq_refl) as (H & _).
  rewrite cost_dijkstra_aligned in H by reflexivity.
  destruct H as (r & h' & E & _ & Hr). exists r, h'. now split.
Defined.

(** * Properties of the reporting *)

Lemma string_length_append (s1 s2 : string) :
  String.length (String.append s1 s2)
  = (String.length s1 + String.length s2)%nat.
Proof. induction s1 as [| c s1 IH]; cbn; [reflexivity | now rewrite IH]. Qed.

Lemma repeat_char_length c k : String.length (repeat_char c k) = k.
Proof.
  unfold repeat_char. induction k as [| k IH]; cbn; [reflexivity |].
  now rewrite IH.
Qed.

Lemma rjust_length w s :
  String.length (rjust w s) = Nat.max w (String.length s).
Proof.
  unfold rjust. rewrite string_length_append, repeat_char_length. lia.
Qed.

Lemma header_length_sum costs :
  String.length (header costs)
  = (10 + list_sum (map (fun kv : string * ndarray =>
                           3 + Nat.max 20 (String.length (fst kv))) costs))%nat.
Proof.
  unfold header. rewrite string_length_append, rjust_length.
  cbn [String.length Nat.max]. f_equal.
  induction costs as [| kv costs IH]; [reflexivity |].
  cbn [map join fold_right list_sum].
  rewrite !string_length_append, rjust_length. fold (join (map
    (fun kv0 : string * ndarray => String.append " | " (rjust 20 (fst kv0)))
    costs)).
  rewrite IH. reflexivity.
Qed.

(** X16: the header of the table of [run_and_plot_scenario] is ten
    characters for the size column and, for each series, three characters
    of separation and a field of twenty characters, or the whole label when
    it is longer; the rule printed under it has the length of the header.
    For the cost table of a scenario this is [10 + 23 * k] characters for
    [k] series. *)
Theorem header_width :
  (forall costs : dict,
      String.length (header costs)
      = (10 + list_sum (map (fun kv : string * ndarray =>
                               3 + Nat.max 20 (String.length (fst kv)))
                          costs))%nat /\
      String.length (separator costs) = String.length (header costs)) /\
  (forall n mf lf costs,
      scenario_costs n mf lf = Ok costs ->
      String.length (header costs) = (10 + 23 * length costs)%nat).
Proof.
  split.
  - intros costs. split; [apply header_length_sum |].
    unfold separator. apply repeat_char_length.
  - intros n mf lf costs H. rewrite header_length_sum.
    apply scenario_costs_labels in H.
    rewrite <- (length_map fst costs).
    rewrite <- (map_map fst (fun k => (3 + Nat.max 20 (String.length k))%nat)).
    rewrite H. destruct lf; reflexivity.
Qed.

Lemma header_width_witness :
  exists costs,
    scenario_costs [Fin 4] (fun n => scalar_mul (Fin 10) n) None = Ok costs /\
    String.length (header costs) = 79%nat.
Proof.
  assert (E : exists costs,
             scenario_costs [Fin 4] (fun n => scalar_mul (Fin 10) n) None
             = Ok costs /\ length costs = 3%nat)
    by (eexists; split; reflexivity).
  destruct E as (costs & E & Hl). exists costs. split; [exact E |].
  rewrite (proj2 header_width _ _ _ _ E), Hl. reflexivity.
Defined.

(** The cost table of a scenario with aligned derived sequences. *)
Lemma scenario_costs_aligned n mf lf :
  length (mf n) = length n ->
  (forall f, lf = Some f -> length (f n) = length n) ->
  scenario_costs n mf lf =
    Ok ([("Dijkstra"%string,
          zip_with fadd (mf n) (zip_with fmul n (np_log2 n)));
         ("Duan et al."%string,
          zip_with fmul (mf n) (np_power (guarded_log n) two_thirds));
         ("Grover SSSP"%string, zip_with fmul (np_sqrt n) (mf n))] ++
        match lf with
        | Some f =>
            [("Wesolowski et al."%string, zip_with fmul (f n) (np_sqrt (mf n)))]
        | None => []
        end).
Proof.
  intros Hm Hl. unfold scenario_costs, base_costs.
  rewrite cost_dijkstra_aligned, cost_duan_et_al_aligned,
    cost_quantum_grover_aligned by congruence.
  cbn [bind]. destruct lf as [f |]; cbn [option_map].
  - rewrite cost_quantum_wesolowski_aligned
      by (rewrite (Hl f eq_refl); congruence).
    reflexivity.
  - reflexivity.
Qed.

Lemma plt_plot_aligned x y label :
  length y = length x ->
  plt_plot x y label
  = Done {| curve_x := x; curve_y := y; curve_label := label |}.
Proof. intros H. unfold plt_plot. now rewrite H, Nat.eqb_refl. Qed.

(** X17: whenever the cost table of a scenario is computed, each series
    is found under its label: the three that are always computed, and
    ["Wesolowski et al."] exactly when a path-length function is supplied;
    without one that key is absent and its lookup raises [KeyError]. *)
Theorem cost_table_lookup :
  forall n mf lf costs,
    scenario_costs n mf lf = Ok costs ->
    (exists d u g,
        cost_dijkstra n (mf n) = Ok d /\
        cost_duan_et_al n (mf n) = Ok u /\
        cost_quantum_grover n (mf n) = Ok g /\
        dict_get costs "Dijkstra" = Done d /\
        dict_get costs "Duan et al." = Done u /\
        dict_get costs "Grover SSSP" = Done g) /\
    match lf with
    | Some f =>
        dict_mem costs "Wesolowski et al." = true /\
        exists w, cost_quantum_wesolowski n (mf n) (f n) = Ok w /\
                  dict_get costs "Wesolowski et al." = Done w
    | None =>
        dict_mem costs "Wesolowski et al." = false /\
        dict_get costs "Wesolowski et al."
        = Fail (KeyError "Wesolowski et al.")
    end.
Proof.
  intros n mf lf costs. unfold scenario_costs, base_costs.
  destruct (cost_dijkstra n (mf n)) as [d |]; [| discriminate].
  destruct (cost_duan_et_al n (mf n)) as [u |]; [| discriminate].
  destruct (cost_quantum_grover n (mf n)) as [g |]; [| discriminate].
  cbn [bind]. destruct lf as [f |]; cbn [option_map].
  - destruct (cost_quantum_wesolowski n (mf n) (f n)) as [w |];
      [| discriminate].
    cbn [bind]. intros [= <-]. split; [exists d, u, g; now repeat split |].
    split; [reflexivity |]. now exists w.
  - intros [= <-]. split; [exists d, u, g; now repeat split |].
    now split.
Qed.

Lemma cost_table_lookup_witness :
  exists costs,
    scenario_costs [Fin 4] (fun n => scalar_mul (Fin 10) n) None = Ok costs /\
    dict_mem costs "Wesolowski et al." = false.
Proof.
  assert (E : exists costs,
             scenario_costs [Fin 4] (fun n => scalar_mul (Fin 10) n) None
             = Ok costs)
    by (eexists; reflexivity).
  destruct E as (costs & E). exists costs. split; [exact E |].
  apply (cost_table_lookup _ _ None costs E).
Defined.

(** X18: for a scenario whose derived sequences have the length of the
    sweep, every [plt.plot] call of [run_and_plot_scenario] is accepted:
    the curves are the series of the cost table, in its order, each over
    the size sweep and of its length; the fourth curve is drawn exactly
    when a path-length function is supplied. *)
Theorem plotted_curves :
  forall n mf lf costs,
    length (mf n) = length n ->
    (forall f, lf = Some f -> length (f n) = length n) ->
    scenario_costs n mf lf = Ok costs ->
    exists curves,
      plot_curves n costs = Done curves /\
      map curve_y curves = map snd costs /\
      Forall (fun c => curve_x c = n /\
                       length (curve_y c) = length n) curves /\
      map curve_label curves
      = ["Dijkstra (Classical)"%string;
         "Duan et al. (New Classical)"%string;
         "Grover SSSP (Quantum)"%string] ++
        match lf with
        | Some _ => ["Wesolowski et al. (Quantum)"%string]
        | None => []
        end.
Proof.
  intros n mf lf costs Hm Hl H.
  rewrite (scenario_costs_aligned n mf lf Hm Hl) in H. injection H as <-.
  assert (Hlog : length (np_log2 n) = length n)
    by (unfold np_log2; apply length_map).
  assert (Hsq : length (np_sqrt n) = length n)
    by (unfold np_sqrt; apply length_map).
  assert (Hsqm : length (np_sqrt (mf n)) = length (mf n))
    by (unfold np_sqrt; apply length_map).
  assert (Hpw : length (np_power (guarded_log n) two_thirds) = length n)
    by (unfold np_power; now rewrite length_map, guarded_log_length).
  assert (Ht : length (zip_with fmul n (np_log2 n)) = length n)
    by (apply zip_with_length; congruence).
  assert (Hd : length (zip_with fadd (mf n) (zip_with fmul n (np_log2 n)))
               = length n)
    by (rewrite zip_with_length; congruence).
  assert (Hu : length (zip_with fmul (mf n)
                         (np_power (guarded_log n) two_thirds)) = length n)
    by (rewrite zip_with_length; congruence).
  assert (Hg : length (zip_with fmul (np_sqrt n) (mf n)) = length n)
    by (rewrite zip_with_length; congruence).
  unfold plot_curves. destruct lf as [f |];
    cbn [app dict_get dict_mem String.eqb Ascii.eqb Bool.eqb obind].
  - assert (Hw : length (zip_with fmul (f n) (np_sqrt (mf n))) = length n)
      by (rewrite zip_with_length; rewrite (Hl f eq_refl); congruence).
    rewrite !plt_plot_aligned by assumption. cbn [obind].
    eexists. split; [reflexivity |]. split; [reflexivity |].
    split; [| reflexivity]. repeat constructor; assumption.
  - rewrite !plt_plot_aligned by assumption. cbn [obind].
    eexists. split; [reflexivity |]. split; [reflexivity |].
    split; [| reflexivity]. repeat constructor; assumption.
Qed.

Lemma plotted_curves_witness :
  exists costs curves,
    scenario_costs [Fin 4; Fin 8] (fun n => scalar_mul (Fin 10) n)
      (Some (fun n => div_scalar n (Fin 10))) = Ok costs /\
    plot_curves [Fin 4; Fin 8] costs = Done curves /\
    length curves = 4%nat.
Proof.
  assert (E : exists costs,
             scenario_costs [Fin 4; Fin 8] (fun n => scalar_mul (Fin 10) n)
               (Some (fun n => div_scalar n (Fin 10))) = Ok costs)
    by (eexists; reflexivity).
  destruct E as (costs & E).
  destruct (plotted_curves [Fin 4; Fin 8] (fun n => scalar_mul (Fin 10) n)
              (Some (fun n => div_scalar n (Fin 10))) costs)
    as (curves & Ep & _ & _ & Hlab).
  - reflexivity.
  - intros f [= <-]. reflexivity.
  - exact E.
  - exists costs, curves. split; [exact E |]. split; [exact Ep |].
    rewrite <- (length_map curve_label curves), Hlab. reflexivity.
Defined.

(** * The sample loops of [run_analysis.py] *)

Lemma nearest_first_value ns q idx :
  nearest_first ns q idx ->
  exists r, nth_error ns idx = Some r /\
            forall r', In r' ns -> Rabs (r - q) <= Rabs (r' - q).
Proof.
  intros (v & Hv & Hle & _). rewrite nth_error_map in Hv.
  destruct (nth_error ns idx) as [r |]; [| discriminate].
  cbn [option_map] in Hv. injection Hv as <-.
  exists r. split; [reflexivity |]. intros r' Hr'.
  apply In_nth_error in Hr' as [j Hj].
  apply (Hle j). now rewrite nth_error_map, Hj.
Qed.

(** X19: the loops of [run_analysis.py] have no range test: for a point
    at or above the largest size of the sweep the size reported is the
    largest one, and for a point at or below the smallest size it is the
    smallest one. *)
Theorem nearest_index_clamps :
  forall (ns : list R) (q lo hi : R),
    sweep_min ns lo -> sweep_max ns hi ->
    exists idx,
      nearest_index (map Fin ns) (Fin q) = Ok idx /\
      (hi <= q -> nth_error ns idx = Some hi) /\
      (q <= lo -> nth_error ns idx = Some lo).
Proof.
  intros ns q lo hi [Hlo Hlb] [Hhi Hub].
  assert (Hne : ns <> []) by (intros ->; contradiction).
  destruct (nearest_index_first ns q Hne) as (idx & E & Hidx).
  exists idx. split; [exact E |].
  destruct (nearest_first_value ns q idx Hidx) as (r & Er & Hmin).
  assert (Hr : In r ns) by (eapply nth_error_In, Er).
  rewrite Er. split; intros Hq; f_equal.
  - pose proof (Hmin hi Hhi) as H. pose proof (Hub r Hr) as H'.
    rewrite !Rabs_left1 in H by lra. lra.
  - pose proof (Hmin lo Hlo) as H. pose proof (Hlb r Hr) as H'.
    rewrite !Rabs_right in H by lra. lra.
Qed.

Lemma nearest_index_clamps_witness :
  exists idx,
    nearest_index (map Fin [1e3; 1e4; 1e5]) (Fin 1e9) = Ok idx /\
    nth_error [1e3; 1e4; 1e5] idx = Some 1e5.
Proof.
  destruct (nearest_index_clamps [1e3; 1e4; 1e5] 1e9 1e3 1e5)
    as (idx & E & Hhi & _).
  - split; [now left |]. intros r [<- | [<- | [<- | []]]]; lra.
  - split; [right; right; now left |].
    intros r [<- | [<- | [<- | []]]]; lra.
  - exists idx. split; [exact E |]. apply Hhi. lra.
Defined.
